(** * fetchTweets.js: a shallow embedding and its verified properties

    The program polls a list of Twitter handles, drops replies, asks a
    language model for a commentary on every remaining tweet and publishes
    it; two JSON files cache the last seen tweet ID and the user ID of every
    handle.

    - JavaScript strings are sequences of UTF-16 code units ([list N]).
    - The objects [lastSeen], [userIds], [newLastSeen] and [newUserIds] are
      used as maps from handle to ID: a [gmap] holds their own properties,
      and reads and writes go through [JS.get] and [JS.set], which know the
      members of [Object.prototype].  The order in which properties are
      enumerated is not modelled: [JSON.stringify] writes the members in
      the order of the [gmap], which changes the text of a file and not
      the mapping that is read back.
    - The network, the language model and the file system are reached
      through a [Platform]: functions that read and update an abstract
      [World].  Every call is recorded, with its outcome, in a chronological
      trace.
    - [console] output is not modelled. *)

From Stdlib Require Import NArith List Ascii String Lia Sorted.
From stdpp Require Import base option numbers list gmap.

Local Open Scope N_scope.

(** ** JavaScript strings *)

Abbreviation jsstring := (list N).

Module JS.

(** An ASCII literal as code units. *)
Definition lit (s : string) : jsstring :=
  map N_of_ascii (list_ascii_of_string s).
#[global] Arguments lit : simpl never.

(** WhiteSpace and LineTerminator code points (ECMA-262, 12.2 and 12.3),
    which [String.prototype.trim] strips. *)
Definition is_white_space (c : N) : bool :=
  ((9 <=? c) && (c <=? 13)) || (c =? 32) || (c =? 160) || (c =? 5760)
  || ((8192 <=? c) && (c <=? 8202)) || (c =? 8232) || (c =? 8233)
  || (c =? 8239) || (c =? 8287) || (c =? 12288) || (c =? 65279).

Fixpoint trimStart (s : jsstring) : jsstring :=
  match s with
  | c :: r => if is_white_space c then trimStart r else s
  | [] => []
  end.

Definition trimEnd (s : jsstring) : jsstring := rev (trimStart (rev s)).

Definition trim (s : jsstring) : jsstring := trimEnd (trimStart s).

(** The values a property that holds a string can have when it is read. *)
Inductive value :=
  | Undefined
  | Null
  | Str (s : jsstring).

(** [v === null] *)
Definition strict_eq_null (v : value) : bool :=
  match v with Null => true | _ => false end.

(** ToBoolean on a string that may be missing ([undefined] or [null]):
    only a non-empty string is truthy. *)
Definition truthy (v : option jsstring) : bool :=
  match v with
  | Some (_ :: _) => true
  | _ => false
  end.

(** *** Plain objects used as maps

    [lastSeen], [userIds], [newLastSeen] and [newUserIds] are created by
    [{}] or by [JSON.parse], and their own properties hold strings: a
    [gmap] holds the own properties.  Every such object inherits the
    members of [Object.prototype]. *)

(** The text of a built-in function in a template literal. *)
Definition native (name : string) : jsstring :=
  lit "function " ++ lit name ++ lit "() { [native code] }".

(** The members of [Object.prototype], each with the text that a template
    literal gives for it: [__proto__] is the prototype object itself, the
    others are built-in functions. *)
Definition prototype_members : list (jsstring * jsstring) :=
  [(lit "__proto__", lit "[object Object]");
   (lit "constructor", native "Object");
   (lit "hasOwnProperty", native "hasOwnProperty");
   (lit "isPrototypeOf", native "isPrototypeOf");
   (lit "propertyIsEnumerable", native "propertyIsEnumerable");
   (lit "toLocaleString", native "toLocaleString");
   (lit "toString", native "toString");
   (lit "valueOf", native "valueOf");
   (lit "__defineGetter__", native "__defineGetter__");
   (lit "__defineSetter__", native "__defineSetter__");
   (lit "__lookupGetter__", native "__lookupGetter__");
   (lit "__lookupSetter__", native "__lookupSetter__")].

Definition inherited (key : jsstring) : option jsstring :=
  (list_to_map prototype_members : gmap jsstring jsstring) !! key.

(** [obj[key]], read to be tested and to be put in a template literal, the
    only uses the program makes of it: the own property, or else the
    inherited member, which is an object or a function, hence truthy, and
    stands here as its text; [None] is [undefined]. *)
Definition get (obj : gmap jsstring jsstring) (key : jsstring)
    : option jsstring :=
  match obj !! key with
  | Some v => Some v
  | None => inherited key
  end.

(** [obj[key] = value] for a string [value]: the own property is created
    or updated, except that [__proto__], when it is no own property, is
    the accessor of the prototype, whose setter ignores a string. *)
Definition set (obj : gmap jsstring jsstring) (key value : jsstring)
    : gmap jsstring jsstring :=
  match obj !! key with
  | Some _ => <[key := value]> obj
  | None =>
      if bool_decide (key = lit "__proto__") then obj
      else <[key := value]> obj
  end.

Definition is_high_surrogate (c : N) : bool := (55296 <=? c) && (c <=? 56319).
Definition is_low_surrogate (c : N) : bool := (56320 <=? c) && (c <=? 57343).

(** [String.prototype.toWellFormed]: every lone surrogate becomes U+FFFD.
    Encoding a string as UTF-8 and decoding it again has this effect. *)
Fixpoint toWellFormed (s : jsstring) : jsstring :=
  match s with
  | [] => []
  | c :: r =>
      if is_high_surrogate c then
        match r with
        | d :: r' =>
            if is_low_surrogate d then c :: d :: toWellFormed r'
            else 65533 :: toWellFormed r
        | [] => [65533]
        end
      else if is_low_surrogate c then 65533 :: toWellFormed r
      else c :: toWellFormed r
  end.

End JS.

Notation "'js' s" := (JS.lit s%string) (at level 9, s at level 0, only parsing).

(** ** JSON text

    [JSON.stringify(m, null, 2)] on an object whose properties hold strings,
    and [JSON.parse] on any text (ECMA-262, 25.5; ECMA-404). *)

Module JSON.

#[warnings="-register-all"]
Inductive json :=
  | JNull
  | JBool (b : bool)
  | JNum (lexeme : jsstring)
  | JStr (s : jsstring)
  | JArr (elements : list json)
  | JObj (members : list (jsstring * json)).

(** *** Serialisation *)

Definition hex_digit (n : N) : N := if n <? 10 then 48 + n else 87 + n.

(** UnicodeEscape: a backslash, [u] and four lower-case hex digits. *)
Definition UnicodeEscape (c : N) : jsstring :=
  [92; 117; hex_digit ((c / 4096) mod 16); hex_digit ((c / 256) mod 16);
   hex_digit ((c / 16) mod 16); hex_digit (c mod 16)].

(** A code unit that is not a surrogate, as QuoteJSONString writes it. *)
Definition quote_unit (c : N) : jsstring :=
  if c =? 8 then [92; 98]
  else if c =? 9 then [92; 116]
  else if c =? 10 then [92; 110]
  else if c =? 12 then [92; 102]
  else if c =? 13 then [92; 114]
  else if c =? 34 then [92; 34]
  else if c =? 92 then [92; 92]
  else if c <? 32 then UnicodeEscape c
  else [c].

(** The string is read by code points: a surrogate pair is copied, a lone
    surrogate is escaped. *)
Fixpoint quote_units (s : jsstring) : jsstring :=
  match s with
  | [] => []
  | c :: r =>
      if JS.is_high_surrogate c then
        match r with
        | d :: r' =>
            if JS.is_low_surrogate d then c :: d :: quote_units r'
            else UnicodeEscape c ++ quote_units r
        | [] => UnicodeEscape c
        end
      else if JS.is_low_surrogate c then UnicodeEscape c ++ quote_units r
      else quote_unit c ++ quote_units r
  end.

Definition QuoteJSONString (s : jsstring) : jsstring :=
  34 :: quote_units s ++ [34].

(** One property, at indentation gap: ["key": "value"]. *)
Definition member_text (kv : jsstring * jsstring) : jsstring :=
  QuoteJSONString kv.1 ++ [58; 32] ++ QuoteJSONString kv.2.

(** The properties joined by a comma, a line feed and the indentation. *)
Fixpoint join_members (l : list (jsstring * jsstring)) : jsstring :=
  match l with
  | [] => []
  | [kv] => member_text kv
  | kv :: r => member_text kv ++ [44; 10; 32; 32] ++ join_members r
  end.

(** SerializeJSONObject with gap of two spaces, at the top level. *)
Definition stringify_members (l : list (jsstring * jsstring)) : jsstring :=
  match l with
  | [] => [123; 125]
  | _ => [123; 10; 32; 32] ++ join_members l ++ [10; 125]
  end.

(** [JSON.stringify(m, null, 2)] *)
Definition stringify (m : gmap jsstring jsstring) : jsstring :=
  stringify_members (map_to_list m).

(** *** Parsing *)

Definition is_ws (c : N) : bool :=
  (c =? 32) || (c =? 9) || (c =? 10) || (c =? 13).

Fixpoint skip_ws (s : jsstring) : jsstring :=
  match s with
  | c :: r => if is_ws c then skip_ws r else s
  | [] => []
  end.

Definition hex_value (c : N) : option N :=
  if (48 <=? c) && (c <=? 57) then Some (c - 48)
  else if (97 <=? c) && (c <=? 102) then Some (c - 87)
  else if (65 <=? c) && (c <=? 70) then Some (c - 55)
  else None.

Definition hex4 (a b c d : N) : option N :=
  match hex_value a, hex_value b, hex_value c, hex_value d with
  | Some x, Some y, Some z, Some w => Some (((x * 16 + y) * 16 + z) * 16 + w)
  | _, _, _, _ => None
  end.

Definition simple_escape (e : N) : option N :=
  if e =? 34 then Some 34
  else if e =? 92 then Some 92
  else if e =? 47 then Some 47
  else if e =? 98 then Some 8
  else if e =? 102 then Some 12
  else if e =? 110 then Some 10
  else if e =? 114 then Some 13
  else if e =? 116 then Some 9
  else None.

Definition cons_fst (c : N) (p : jsstring * jsstring) : jsstring * jsstring :=
  (c :: p.1, p.2).

(** The characters of a string after its opening quote, up to and
    including the closing quote; the rest of the text is returned too. *)
Fixpoint parse_chars (s : jsstring) : option (jsstring * jsstring) :=
  match s with
  | [] => None
  | c :: r =>
      if c =? 34 then Some ([], r)
      else if c =? 92 then
        match r with
        | [] => None
        | e :: r1 =>
            if e =? 117 then
              match r1 with
              | a :: b :: c' :: d :: r2 =>
                  match hex4 a b c' d with
                  | Some x => cons_fst x <$> parse_chars r2
                  | None => None
                  end
              | _ => None
              end
            else
              match simple_escape e with
              | Some x => cons_fst x <$> parse_chars r1
              | None => None
              end
        end
      else if c <? 32 then None
      else cons_fst c <$> parse_chars r
  end.

Definition is_digit (c : N) : bool := (48 <=? c) && (c <=? 57).

Fixpoint digits (s : jsstring) : jsstring * jsstring :=
  match s with
  | c :: r => if is_digit c then cons_fst c (digits r) else ([], s)
  | [] => ([], [])
  end.

(** The integer part of a number: [0], or a non-zero digit and digits. *)
Definition parse_int (s : jsstring) : option (jsstring * jsstring) :=
  match s with
  | c :: r =>
      if c =? 48 then Some ([48], r)
      else if is_digit c then Some (cons_fst c (digits r))
      else None
  | [] => None
  end.

Definition parse_frac (s : jsstring) : option (jsstring * jsstring) :=
  match s with
  | 46 :: r =>
      match digits r with
      | ([], _) => None
      | (ds, r') => Some (46 :: ds, r')
      end
  | _ => Some ([], s)
  end.

Definition parse_sign (s : jsstring) : jsstring * jsstring :=
  match s with
  | c :: r => if (c =? 43) || (c =? 45) then ([c], r) else ([], s)
  | [] => ([], [])
  end.

Definition parse_exp (s : jsstring) : option (jsstring * jsstring) :=
  match s with
  | c :: r =>
      if (c =? 101) || (c =? 69) then
        let '(sg, r1) := parse_sign r in
        match digits r1 with
        | ([], _) => None
        | (ds, r2) => Some (c :: sg ++ ds, r2)
        end
      else Some ([], s)
  | [] => Some ([], [])
  end.

(** A number is kept as its lexeme: its value is never used. *)
Definition parse_number (s : jsstring) : option (jsstring * jsstring) :=
  let '(minus, s1) :=
    match s with
    | 45 :: r => ([45], r)
    | _ => ([], s)
    end in
  '(i, s2) ← parse_int s1;
  '(f, s3) ← parse_frac s2;
  '(e, s4) ← parse_exp s3;
  Some (minus ++ i ++ f ++ e, s4).

Definition parse_literal (s : jsstring) : option (json * jsstring) :=
  match s with
  | 116 :: 114 :: 117 :: 101 :: r => Some (JBool true, r)
  | 102 :: 97 :: 108 :: 115 :: 101 :: r => Some (JBool false, r)
  | 110 :: 117 :: 108 :: 108 :: r => Some (JNull, r)
  | _ => None
  end.

(** Recursive descent; every call on [fuel] follows the consumption of at
    least one code unit, so that [S (length text)] is enough for any text. *)
Fixpoint parse_value (fuel : nat) (s : jsstring) : option (json * jsstring) :=
  match fuel with
  | O => None
  | S fuel' =>
      match skip_ws s with
      | [] => None
      | c :: r =>
          if c =? 123 then
            match skip_ws r with
            | 125 :: r' => Some (JObj [], r')
            | _ => '(ms, r') ← parse_members fuel' r; Some (JObj ms, r')
            end
          else if c =? 91 then
            match skip_ws r with
            | 93 :: r' => Some (JArr [], r')
            | _ => '(es, r') ← parse_elements fuel' r; Some (JArr es, r')
            end
          else if c =? 34 then
            '(str, r') ← parse_chars r; Some (JStr str, r')
          else if (c =? 45) || is_digit c then
            '(n, r') ← parse_number (c :: r); Some (JNum n, r')
          else parse_literal (c :: r)
      end
  end
with parse_members (fuel : nat) (s : jsstring)
  : option (list (jsstring * json) * jsstring) :=
  match fuel with
  | O => None
  | S fuel' =>
      match skip_ws s with
      | 34 :: r =>
          '(k, r1) ← parse_chars r;
          match skip_ws r1 with
          | 58 :: r2 =>
              '(v, r3) ← parse_value fuel' r2;
              match skip_ws r3 with
              | 44 :: r4 =>
                  '(ms, r5) ← parse_members fuel' r4; Some ((k, v) :: ms, r5)
              | 125 :: r4 => Some ([(k, v)], r4)
              | _ => None
              end
          | _ => None
          end
      | _ => None
      end
  end
with parse_elements (fuel : nat) (s : jsstring)
  : option (list json * jsstring) :=
  match fuel with
  | O => None
  | S fuel' =>
      '(v, r1) ← parse_value fuel' s;
      match skip_ws r1 with
      | 44 :: r2 => '(es, r3) ← parse_elements fuel' r2; Some (v :: es, r3)
      | 93 :: r2 => Some ([v], r2)
      | _ => None
      end
  end.

(** [JSON.parse(text)]; [None] stands for the SyntaxError it throws. *)
Definition parse (text : jsstring) : option json :=
  '(v, rest) ← parse_value (S (length text)) text;
  match skip_ws rest with
  | [] => Some v
  | _ => None
  end.

(** The object a parsed text denotes, when it is an object whose
    properties all hold strings: a property that occurs twice keeps its
    last value. *)
Fixpoint members_mapping (ms : list (jsstring * json))
    (acc : gmap jsstring jsstring) : option (gmap jsstring jsstring) :=
  match ms with
  | [] => Some acc
  | (k, JStr v) :: r => members_mapping r (<[k := v]> acc)
  | _ => None
  end.

Definition as_mapping (v : json) : option (gmap jsstring jsstring) :=
  match v with
  | JObj ms => members_mapping ms ∅
  | _ => None
  end.

End JSON.

(** ** The platform and the state of the program *)

(** A tweet of a timeline response.  Only [tweet.fields=created_at] is
    requested, and no field of that name is read. *)
Record Tweet := {
  id : jsstring;
  text : jsstring;
  in_reply_to_user_id : JS.value;
}.

(** The outer world.  Every function takes the request and the world before
    the call, and gives the outcome and the world after it.
    - [axios_get_user url]: [res.data.data.id] of [axios.get(url)], [None]
      when the call or the access throws;
    - [axios_get_tweets url]: [res.data.data] of [axios.get(url)], which the
      API leaves out for an empty timeline ([Some None]); [None] when the
      call throws;
    - [openai_create prompt]: [res.choices[0].message.content] of the
      completion, [None] when the call or the access to the content throws;
    - [twitter_tweet text]: whether [twitterClient.v2.tweet(text)] returns;
    - [fs_write path]: whether [fs.writeFileSync(path, _)] returns. *)
Class Platform := {
  World : Type;
  axios_get_user : jsstring → World → option jsstring * World;
  axios_get_tweets : jsstring → World → option (option (list Tweet)) * World;
  openai_create : jsstring → World → option jsstring * World;
  twitter_tweet : jsstring → World → bool * World;
  fs_write : jsstring → World → bool * World;
}.

(** A file that exists holds a text, or cannot be read. *)
Inductive File :=
  | FileText (content : jsstring)
  | FileUnreadable.

(** What the program does to the world, in the order it does it. *)
Inductive Event :=
  | EvGetUser (url : jsstring) (outcome : option jsstring)
  | EvGetTweets (url : jsstring) (outcome : option (option (list Tweet)))
  | EvCompletion (prompt : jsstring) (outcome : option jsstring)
  | EvTweet (fullText : jsstring) (posted : bool)
  | EvSleep (milliseconds : N)
  | EvTimer (milliseconds : N)
  | EvWrite (path : jsstring) (content : jsstring) (written : bool).

Record State `{Platform} := {
  world : World;
  lastSeen : gmap jsstring jsstring;
  userIds : gmap jsstring jsstring;
  disk : gmap jsstring File;
  trace : list Event;
}.

Definition userHandles : list jsstring := [js "AzoniNFT"].
Definition lastSeenFile : jsstring := js "./lastSeen.json".
Definition userIdFile : jsstring := js "./userIds.json".
Definition POLL_INTERVAL_MS : N := 60 * 1000.

(** ** The program *)

Section Program.
Context `{Platform}.

(** Computations on the state. *)
Definition M (A : Type) : Type := State → A * State.

Definition ret {A} (a : A) : M A := λ st, (a, st).

Definition bind {A B} (m : M A) (f : A → M B) : M B :=
  λ st, let '(a, st') := m st in f a st'.

Notation "'do' x <- m ;; k" := (bind m (λ x, k))
  (at level 10, x name, m at level 99, k at level 200).

Definition emit (e : Event) : M unit :=
  λ st, (tt, {| world := world st; lastSeen := lastSeen st;
                userIds := userIds st; disk := disk st;
                trace := trace st ++ [e] |}).

(** A call to the outer world. *)
Definition call {A} (f : World → A * World) : M A :=
  λ st, let '(a, w) := f (world st) in
        (a, {| world := w; lastSeen := lastSeen st; userIds := userIds st;
               disk := disk st; trace := trace st |}).

Definition set_lastSeen (username value : jsstring) : M unit :=
  λ st, (tt, {| world := world st;
                lastSeen := JS.set (lastSeen st) username value;
                userIds := userIds st; disk := disk st;
                trace := trace st |}).

Fixpoint for_each {A} (l : list A) (body : A → M unit) : M unit :=
  match l with
  | [] => ret tt
  | a :: r => do _ <- body a;; for_each r body
  end.

(** [sleep(ms)] waits [ms * 1000] milliseconds. *)
Definition sleep (ms : N) : M unit := emit (EvSleep (ms * 1000)).

(** [sleep(ms)] that is not awaited: a timer is started and nothing waits
    for it. *)
Definition sleep_detached (ms : N) : M unit := emit (EvTimer (ms * 1000)).

(** [fs.writeFileSync(path, content)]; [false] when it throws.  The content
    goes to the file as UTF-8 and is read back from UTF-8.  A call that
    throws is taken to fail before the file is opened (a missing directory,
    a refused permission): a write that fails midway, and leaves a
    truncated file, is not modelled. *)
Definition writeFileSync (path content : jsstring) : M bool :=
  do ok <- call (fs_write path);;
  do _ <- emit (EvWrite path content ok);;
  if ok : bool then
    λ st, (true, {| world := world st; lastSeen := lastSeen st;
                    userIds := userIds st;
                    disk := <[path := FileText (JS.toWellFormed content)]>
                              (disk st);
                    trace := trace st |})
  else ret false.

Definition prompt (tweetText : jsstring) : jsstring :=
  [10] ++ js "    You are a crypto trader who reads news and market sentiment daily." ++ [10]
  ++ js "    Analyze this tweet and write a quote tweet that casually gives insight "
  ++ [8212]
  ++ js " such as why the market is green (e.g., recent ETF approval, CPI numbers, whale activity) or why it might reverse. Use real logic, but be conversational."
  ++ [10] ++ js "    " ++ [10]
  ++ js "    Tweet: " ++ [34] ++ tweetText ++ [34] ++ [10]
  ++ js "    ".

(** The commentary, or [None] for the [null] that a failure gives. *)
Definition generateQuote (tweetText : jsstring) : M (option jsstring) :=
  do res <- call (openai_create (prompt tweetText));;
  do _ <- emit (EvCompletion (prompt tweetText) res);;
  match res with
  | Some content => ret (Some (JS.trim content))
  | None => ret None
  end.

Definition postQuote (tweetId quoteText : jsstring) : M unit :=
  let url := js "https://twitter.com/i/web/status/" ++ tweetId in
  let fullText := quoteText ++ [10; 10] ++ url in
  do posted <- call (twitter_tweet fullText);;
  emit (EvTweet fullText posted).

(** The statements that load the two files when the module starts:
    the values of [lastSeen] and [userIds] after them.  Both start as the
    empty object; the first failure leaves what follows it undone. *)
Definition read_json (d : gmap jsstring File) (path : jsstring)
    : option JSON.json :=
  match d !! path with
  | Some (FileText content) => JSON.parse content
  | _ => None
  end.

Definition load_cache (d : gmap jsstring File) : JSON.json * JSON.json :=
  let empty := JSON.JObj [] in
  match d !! lastSeenFile with
  | Some _ =>
      match read_json d lastSeenFile with
      | Some v =>
          match d !! userIdFile with
          | Some _ =>
              match read_json d userIdFile with
              | Some v' => (v, v')
              | None => (v, empty)
              end
          | None => (v, empty)
          end
      | None => (empty, empty)
      end
  | None =>
      match d !! userIdFile with
      | Some _ =>
          match read_json d userIdFile with
          | Some v' => (empty, v')
          | None => (empty, empty)
          end
      | None => (empty, empty)
      end
  end.

(** [None] when the lookup throws. *)
Definition getUserId (username : jsstring) : M (option jsstring) :=
  let url := js "https://api.twitter.com/2/users/by/username/" ++ username in
  do res <- call (axios_get_user url);;
  do _ <- emit (EvGetUser url res);;
  ret res.

(** [None] when the request throws; [Some None] for [undefined]. *)
Definition getLatestTweet (userId : jsstring) : M (option (option jsstring)) :=
  let url := js "https://api.twitter.com/2/users/" ++ userId
             ++ js "/tweets?max_results=5" in
  do res <- call (axios_get_tweets url);;
  do _ <- emit (EvGetTweets url res);;
  match res with
  | Some (Some (t :: _)) => ret (Some (Some (id t)))
  | Some _ => ret (Some None)
  | None => ret None
  end.

Definition tweets_url (userId : jsstring) (sinceId : option jsstring)
    : jsstring :=
  js "https://api.twitter.com/2/users/" ++ userId
  ++ js "/tweets?max_results=5&tweet.fields=created_at"
  ++ (if JS.truthy sinceId then js "&since_id=" ++ default [] sinceId else []).

Definition is_original (tweet : Tweet) : bool :=
  JS.strict_eq_null (in_reply_to_user_id tweet).

Definition getNewTweets (userId username : jsstring) : M (list Tweet) :=
  do sinceId <- (λ st, (JS.get (lastSeen st) username, st));;
  let url := tweets_url userId sinceId in
  do res <- call (axios_get_tweets url);;
  do _ <- emit (EvGetTweets url res);;
  match res with
  | Some data =>
      let tweets := default [] data in
      let filteredTweets := List.filter is_original tweets in
      do _ <- match filteredTweets with
              | first :: _ => set_lastSeen username (id first)
              | [] => ret tt
              end;;
      ret (rev filteredTweets)
  | None => ret []
  end.

(** One turn of the loop of [initializeLastSeen]. *)
Definition initialize_handle (handle : jsstring)
    (acc : gmap jsstring jsstring * gmap jsstring jsstring)
    : M (gmap jsstring jsstring * gmap jsstring jsstring) :=
  let '(newLastSeen, newUserIds) := acc in
  do res <- getUserId handle;;
  match res with
  | Some userId =>
      let newUserIds := JS.set newUserIds handle userId in
      do _ <- sleep 300;;
      do latest <- getLatestTweet userId;;
      match latest with
      | Some latestTweetId =>
          if JS.truthy latestTweetId
          then ret (JS.set newLastSeen handle (default [] latestTweetId),
                    newUserIds)
          else ret (newLastSeen, newUserIds)
      | None => ret (newLastSeen, newUserIds)
      end
  | None => ret (newLastSeen, newUserIds)
  end.

Fixpoint initialize_handles (handles : list jsstring)
    (acc : gmap jsstring jsstring * gmap jsstring jsstring)
    : M (gmap jsstring jsstring * gmap jsstring jsstring) :=
  match handles with
  | [] => ret acc
  | handle :: r =>
      do acc' <- initialize_handle handle acc;;
      initialize_handles r acc'
  end.

(** [initializeLastSeen] for a list of handles; the two new mappings are
    returned for reference. *)
Definition initializeLastSeen_for (handles : list jsstring)
    : M (gmap jsstring jsstring * gmap jsstring jsstring) :=
  do acc <- initialize_handles handles (∅, ∅);;
  do written <- writeFileSync lastSeenFile (JSON.stringify acc.1);;
  do _ <- (if written : bool
           then do _ <- writeFileSync userIdFile (JSON.stringify acc.2);;
                ret tt
           else ret tt);;
  ret acc.

Definition initializeLastSeen
    : M (gmap jsstring jsstring * gmap jsstring jsstring) :=
  initializeLastSeen_for userHandles.

(** What [poll] does with one tweet. *)
Definition process_tweet (handle : jsstring) (tweet : Tweet) : M unit :=
  do quote <- generateQuote (text tweet);;
  if JS.truthy quote then
    do _ <- postQuote (id tweet) (default [] quote ++ js " " ++ js "@" ++ handle);;
    sleep 2
  else ret tt.

(** One turn of the loop of [poll]. *)
Definition poll_handle (handle : jsstring) : M unit :=
  do userId <- (λ st, (JS.get (userIds st) handle, st));;
  if negb (JS.truthy userId) then ret tt
  else
    do newTweets <- getNewTweets (default [] userId) handle;;
    do _ <- for_each newTweets (process_tweet handle);;
    sleep_detached 60.

Definition poll_for (handles : list jsstring) : M unit :=
  do _ <- for_each handles poll_handle;;
  do text <- (λ st, (JSON.stringify (lastSeen st), st));;
  do _ <- writeFileSync lastSeenFile text;;
  ret tt.

Definition poll : M unit := poll_for userHandles.

End Program.

(** ** Reading a trace *)

(** The prompts sent to the language model, in order. *)
Fixpoint completion_prompts (tr : list Event) : list jsstring :=
  match tr with
  | EvCompletion p _ :: r => p :: completion_prompts r
  | _ :: r => completion_prompts r
  | [] => []
  end.

(** The texts handed to [twitterClient.v2.tweet], in order. *)
Fixpoint published_texts (tr : list Event) : list jsstring :=
  match tr with
  | EvTweet t _ :: r => t :: published_texts r
  | _ :: r => published_texts r
  | [] => []
  end.

(** The files that [fs.writeFileSync] was called on, in order. *)
Fixpoint written_paths (tr : list Event) : list jsstring :=
  match tr with
  | EvWrite p _ _ :: r => p :: written_paths r
  | _ :: r => written_paths r
  | [] => []
  end.

(** The events of one tweet in [poll], given what the language model
    answered and whether the tweet call returned. *)
Definition tweet_events (handle : jsstring) (tweet : Tweet)
    (answer : option jsstring) (posted : bool) : list Event :=
  EvCompletion (prompt (text tweet)) answer ::
  match JS.trim <$> answer with
  | Some (c :: q) =>
      [EvTweet ((c :: q) ++ js " " ++ js "@" ++ handle ++ [10; 10]
                ++ js "https://twitter.com/i/web/status/" ++ id tweet) posted;
       EvSleep 2000]
  | _ => []
  end.

(** The events of a batch of tweets, one outcome for each tweet. *)
Fixpoint batch_events (handle : jsstring) (tweets : list Tweet)
    (outcomes : list (option jsstring * bool)) : list Event :=
  match tweets, outcomes with
  | t :: ts, o :: os => tweet_events handle t o.1 o.2 ++ batch_events handle ts os
  | _, _ => []
  end.

(** The tweets that [getNewTweets] keeps of a response, newest first. *)
Definition kept (res : option (option (list Tweet))) : list Tweet :=
  match res with
  | Some data => List.filter is_original (default [] data)
  | None => []
  end.

(** [lastSeen] after [getNewTweets] has kept [tweets] for [username]. *)
Definition advance (username : jsstring) (tweets : list Tweet)
    (m : gmap jsstring jsstring) : gmap jsstring jsstring :=
  match tweets with
  | first :: _ => JS.set m username (id first)
  | [] => m
  end.

(** A tweet is a reply when the API gives it the ID of the user it answers;
    the API leaves the field out of a tweet that answers nobody. *)
Definition has_reply_target (tweet : Tweet) : bool :=
  match in_reply_to_user_id tweet with
  | JS.Str _ => true
  | _ => false
  end.

Section Cycles.
Context `{Platform}.

(** [startPolling] runs [poll] once and then at every tick of
    [setInterval(poll, POLL_INTERVAL_MS)]: its first [cycles] runs, when no
    run starts before the one before it has ended. *)
Fixpoint startPolling_for (handles : list jsstring) (cycles : nat)
    : M unit :=
  match cycles with
  | O => ret tt
  | S n => bind (poll_for handles) (λ _, startPolling_for handles n)
  end.

Definition startPolling (cycles : nat) : M unit :=
  startPolling_for userHandles cycles.

(** The contract of the timeline endpoint for [since_id]: the tweets of
    the response have IDs, and these are newer than the one asked for. *)
Definition honours_since_id (newer : jsstring → jsstring → Prop) : Prop :=
  ∀ userId sinceId w tweets,
    JS.truthy (Some sinceId) = true →
    (axios_get_tweets (tweets_url userId (Some sinceId)) w).1
      = Some (Some tweets) →
    Forall (λ t, id t ≠ [] ∧ newer sinceId (id t)) tweets.

End Cycles.

(** ** A platform to run the program on

    The user lookup answers from a table of URLs; the timeline is a fixed
    list of tweets, of which a request with [since_id] gets the newer ones;
    the language model answers by a function of the prompt; tweeting and
    writing succeed. *)

Fixpoint starts_with (p s : jsstring) : bool :=
  match p, s with
  | [], _ => true
  | a :: p', b :: s' => (a =? b) && starts_with p' s'
  | _ :: _, [] => false
  end.

(** Every text that follows [since_id=] in a URL. *)
Fixpoint since_ids (url : jsstring) : list jsstring :=
  (if starts_with (js "since_id=") url
   then [drop (length (js "since_id=")) url] else [])
  ++ match url with
     | _ :: url' => since_ids url'
     | [] => []
     end.

Fixpoint assoc (k : jsstring) (l : list (jsstring * jsstring))
    : option jsstring :=
  match l with
  | (k', v) :: r => if bool_decide (k = k') then Some v else assoc k r
  | [] => None
  end.

(** Tweet IDs are decimal numbers; the greater one is the newer one. *)
Definition id_value (s : jsstring) : N :=
  fold_left (λ acc c, acc * 10 + (c - 48)) s 0.

Definition id_newer (a b : jsstring) : Prop := id_value a < id_value b.

Definition newer_than_all (ids : list jsstring) (t : Tweet) : bool :=
  forallb (λ s, id_value s <? id_value (id t)) ids.

Definition script (users : list (jsstring * jsstring))
    (timeline : list Tweet) (answer : jsstring → option jsstring)
    : Platform :=
  {| World := unit;
     axios_get_user url w := (assoc url users, w);
     axios_get_tweets url w :=
       (Some (Some (List.filter (newer_than_all (since_ids url)) timeline)),
        w);
     openai_create p w := (answer p, w);
     twitter_tweet _ w := (true, w);
     fs_write _ w := (true, w) |}.

Definition start `{Platform} (w : World)
    (seen ids : list (jsstring * jsstring)) : State :=
  {| world := w; lastSeen := list_to_map seen; userIds := list_to_map ids;
     disk := ∅; trace := [] |}.

Definition P1 : Tweet :=
  {| id := js "101"; text := js "gm"; in_reply_to_user_id := JS.Null |}.
Definition P2 : Tweet :=
  {| id := js "102"; text := js "btc"; in_reply_to_user_id := JS.Null |}.
Definition P3 : Tweet :=
  {| id := js "103"; text := js "eth"; in_reply_to_user_id := JS.Null |}.

(** A tweet as the API sends it when it answers nobody. *)
Definition plain : Tweet :=
  {| id := js "104"; text := js "sol"; in_reply_to_user_id := JS.Undefined |}.

Definition azoni_url : jsstring :=
  js "https://api.twitter.com/2/users/by/username/AzoniNFT".

(** The configured handle is known, its timeline holds three tweets, and
    the language model fails on the second one. *)
Definition demo : Platform :=
  script [(azoni_url, js "42")] [P3; P2; P1]
    (λ p, if bool_decide (p = prompt (js "btc")) then None
          else Some (js " up only ")).

Definition demo_start : State :=
  @start demo tt [] [(js "AzoniNFT", js "42")].

(** The timeline holds one tweet, which answers nobody. *)
Definition demo_plain : Platform :=
  script [(azoni_url, js "42")] [plain] (λ _, Some (js " up only ")).

Definition demo_plain_start : State :=
  @start demo_plain tt [] [(js "AzoniNFT", js "42")].

(** The watermark of [h] is [w0] or newer. *)
Definition not_older `{Platform} (newer : jsstring → jsstring → Prop)
    (h w0 : jsstring) (st : State) : Prop :=
  ∃ w, lastSeen st !! h = Some w ∧ JS.truthy (Some w) = true
       ∧ (w = w0 ∨ newer w0 w).

(** The states that the program reaches from a state: by the turn of a
    handle in [poll], and by the write that ends [poll]. *)
Inductive later `{Platform} (st : State) : State → Prop :=
  | later_now : later st st
  | later_turn st' handle :
      later st st' → later st (poll_handle handle st').2
  | later_save st' :
      later st st' →
      later st
        (writeFileSync lastSeenFile (JSON.stringify (lastSeen st')) st').2.

(** The URLs of the user lookup and of the latest tweets. *)
Definition user_url (username : jsstring) : jsstring :=
  js "https://api.twitter.com/2/users/by/username/" ++ username.

Definition latest_url (userId : jsstring) : jsstring :=
  js "https://api.twitter.com/2/users/" ++ userId
  ++ js "/tweets?max_results=5".



(** The file system accepts every write. *)
Definition writes_succeed `{Platform} : Prop :=
  ∀ path w, (fs_write path w).1 = true.

(** Two handles, of which only the first one is known to the API. *)
Definition demo_two : Platform :=
  script [(azoni_url, js "42")] [P3; P2; P1] (λ _, Some (js " up only ")).

Definition demo_two_start : State := @start demo_two tt [] [].

(** A start with a watermark that is older than two tweets of the
    timeline. *)
Definition demo_seen : State :=
  @start demo tt [(js "AzoniNFT", js "101")] [(js "AzoniNFT", js "42")].

(** A start with the watermark at the newest tweet of the timeline. *)
Definition demo_caught_up : State :=
  @start demo tt [(js "AzoniNFT", js "103")] [(js "AzoniNFT", js "42")].

(** The members that the text of a mapping is parsed into. *)
Definition as_members (l : list (jsstring * jsstring))
    : list (jsstring * JSON.json) :=
  map (λ kv, (kv.1, JSON.JStr kv.2)) l.

(** The two caches, their files, and what the start of the module loads
    into each. *)
Inductive Cache :=
  | LastSeenCache
  | UserIdCache.

Definition cache_file (c : Cache) : jsstring :=
  match c with
  | LastSeenCache => lastSeenFile
  | UserIdCache => userIdFile
  end.

Definition loaded (c : Cache) (d : gmap jsstring File) : JSON.json :=
  match c with
  | LastSeenCache => (load_cache d).1
  | UserIdCache => (load_cache d).2
  end.

(** A disk on which [lastSeen.json] is not JSON. *)
Definition corrupt_disk : gmap jsstring File :=
  {[ lastSeenFile := FileText (js "{oops") ]}.

(** The time that a run has waited in awaited [sleep] calls, in
    milliseconds. *)
Fixpoint total_sleep (tr : list Event) : N :=
  match tr with
  | EvSleep ms :: r => ms + total_sleep r
  | _ :: r => total_sleep r
  | [] => 0
  end.

(** The user lookups that have returned an ID. *)
Fixpoint resolved_lookups (tr : list Event) : nat :=
  match tr with
  | EvGetUser _ (Some _) :: r => S (resolved_lookups r)
  | _ :: r => resolved_lookups r
  | [] => O
  end.

(** The lookup of a handle succeeds, and the request for its latest tweets
    throws or gives no tweet. *)
Definition resolves_without_posts `{Platform} (handle : jsstring) : Prop :=
  ∀ w, ∃ userId,
    (axios_get_user (user_url handle) w).1 = Some userId ∧
    ∀ w', match (axios_get_tweets (latest_url userId) w').1 with
          | Some (Some (_ :: _)) => False
          | _ => True
          end.

(** The module from its first statement to the end of its first [cycles]
    poll cycles, or to the end of the bootstrap with [--init]: the caches
    are loaded from the disk and the mode is run.  [None] when a cache
    file holds JSON that is not an object of strings, which the state does
    not represent. *)
Definition main_for `{Platform} (handles : list jsstring)
    (isInitMode : bool) (cycles : nat) (w : World)
    (d : gmap jsstring File) : option State :=
  let caches := load_cache d in
  match JSON.as_mapping caches.1, JSON.as_mapping caches.2 with
  | Some seen, Some ids =>
      let st := {| world := w; lastSeen := seen; userIds := ids;
                   disk := d; trace := [] |} in
      Some (if isInitMode then (initializeLastSeen_for handles st).2
            else (startPolling_for handles cycles st).2)
  | _, _ => None
  end.

Definition main `{Platform} (isInitMode : bool) (cycles : nat) (w : World)
    (d : gmap jsstring File) : option State :=
  main_for userHandles isInitMode cycles w d.

(** The account is known and has no tweet yet. *)
Definition demo_empty : Platform :=
  script [(azoni_url, js "42")] [] (λ _, Some (js " up only ")).

Definition demo_empty_start : State :=
  @start demo_empty tt [] [(js "AzoniNFT", js "42")].

(** As [demo], on a file system that refuses every write. *)
Definition demo_readonly : Platform :=
  {| World := unit;
     axios_get_user url w := (assoc url [(azoni_url, js "42")], w);
     axios_get_tweets url w := (Some (Some [P3; P2; P1]), w);
     openai_create p w := (Some (js " up only "), w);
     twitter_tweet _ w := (true, w);
     fs_write _ w := (false, w) |}.

(** The language model answers with white space only. *)
Definition demo_blank : Platform :=
  script [(azoni_url, js "42")] [P1] (λ _, Some (js "   ")).

(** What the new mappings of the bootstrap hold, turn after turn: a
    watermark is not empty and comes with a user ID, and every key is one
    of the handles. *)
Definition bootstrap_inv (handles : list jsstring)
    (acc : gmap jsstring jsstring * gmap jsstring jsstring) : Prop :=
  (∀ h w, acc.1 !! h = Some w →
          JS.truthy (Some w) = true ∧ is_Some (acc.2 !! h)) ∧
  (∀ h, is_Some (acc.2 !! h) → h ∈ handles).

(** The text that [poll] hands to [postQuote], and [postQuote] to
    [twitterClient.v2.tweet]: the commentary, a mention of the handle, and
    the link to the tweet. *)
Definition reply_text (commentary handle tweetId : jsstring) : jsstring :=
  commentary ++ js " " ++ js "@" ++ handle ++ [10; 10]
  ++ js "https://twitter.com/i/web/status/" ++ tweetId.

(** What the outer world sees of one tweet in [poll], from the world [w]:
    the request to the language model and, for a commentary that is not
    empty, the tweet call and the pause; and the world after them. *)
Definition tweet_run `{Platform} (handle : jsstring) (tweet : Tweet)
    (w : World) : list Event * World :=
  let answer := openai_create (prompt (text tweet)) w in
  match JS.trim <$> answer.1 with
  | Some (c :: q) =>
      let posted :=
        twitter_tweet (reply_text (c :: q) handle (id tweet)) answer.2 in
      ([EvCompletion (prompt (text tweet)) answer.1;
        EvTweet (reply_text (c :: q) handle (id tweet)) posted.1;
        EvSleep 2000],
       posted.2)
  | _ => ([EvCompletion (prompt (text tweet)) answer.1], answer.2)
  end.

(** The same for the tweets of a batch, one after the other. *)
Fixpoint batch_run `{Platform} (handle : jsstring) (tweets : list Tweet)
    (w : World) : list Event * World :=
  match tweets with
  | [] => ([], w)
  | t :: ts =>
      let first := tweet_run handle t w in
      let others := batch_run handle ts first.2 in
      (first.1 ++ others.1, others.2)
  end.

(** The contract of the timeline endpoint for the order of a response:
    the newest tweet comes first. *)
Definition newest_first `{Platform} (newer : jsstring → jsstring → Prop)
    : Prop :=
  ∀ url w tweets,
    (axios_get_tweets url w).1 = Some (Some tweets) →
    StronglySorted (λ a b, newer (id b) (id a)) tweets.

(** Every tweet call is followed at once by a pause of 2000 ms, and there
    is no other pause. *)
Fixpoint paced (tr : list Event) : bool :=
  match tr with
  | EvTweet _ _ :: r =>
      match r with
      | EvSleep ms :: r' => (ms =? 2000) && paced r'
      | _ => false
      end
  | EvSleep _ :: _ => false
  | _ :: r => paced r
  | [] => true
  end.



(** The events that a run from [st] to [st'] has added. *)
Definition since `{Platform} (st st' : State) : list Event :=
  drop (length (trace st)) (trace st').

(** * Properties of the poll cycle *)

Section Poll.
Context `{Platform}.

Lemma since_app (st st' : State) evs :
  trace st' = trace st ++ evs → since st st' = evs.
Proof. unfold since. intros ->. by rewrite drop_app_length. Qed.

Lemma completion_prompts_app a b :
  completion_prompts (a ++ b) = completion_prompts a ++ completion_prompts b.
Proof.
  induction a as [|e a IH]; [done|].
  destruct e; cbn; rewrite ?IH; done.
Qed.

Lemma published_texts_app a b :
  published_texts (a ++ b) = published_texts a ++ published_texts b.
Proof.
  induction a as [|e a IH]; [done|].
  destruct e; cbn; rewrite ?IH; done.
Qed.

Lemma written_paths_app a b :
  written_paths (a ++ b) = written_paths a ++ written_paths b.
Proof.
  induction a as [|e a IH]; [done|].
  destruct e; cbn; rewrite ?IH; done.
Qed.

Lemma tweet_events_prompts h t answer posted :
  completion_prompts (tweet_events h t answer posted) = [prompt (text t)].
Proof.
  unfold tweet_events.
  destruct (JS.trim <$> answer) as [[|c q]|]; reflexivity.
Qed.

Lemma tweet_events_paths h t answer posted :
  written_paths (tweet_events h t answer posted) = [].
Proof.
  unfold tweet_events.
  destruct (JS.trim <$> answer) as [[|c q]|]; reflexivity.
Qed.

Lemma batch_events_prompts h tweets : ∀ outcomes,
  length outcomes = length tweets →
  completion_prompts (batch_events h tweets outcomes)
    = map (λ t, prompt (text t)) tweets.
Proof.
  induction tweets as [|t ts IH]; intros [|o os] Hlen; try done.
  cbn [batch_events map]. rewrite completion_prompts_app, tweet_events_prompts.
  cbn. f_equal. apply IH. cbn in Hlen. lia.
Qed.

Lemma batch_events_paths h tweets : ∀ outcomes,
  written_paths (batch_events h tweets outcomes) = [].
Proof.
  induction tweets as [|t ts IH]; intros [|o os]; try done.
  cbn [batch_events]. by rewrite written_paths_app, tweet_events_paths, IH.
Qed.

(** [generateQuote] calls the language model once and changes nothing
    else. *)
Lemma generateQuote_spec tweetText st :
  let res := openai_create (prompt tweetText) (world st) in
  generateQuote tweetText st =
    (JS.trim <$> res.1,
     {| world := res.2; lastSeen := lastSeen st; userIds := userIds st;
        disk := disk st;
        trace := trace st ++ [EvCompletion (prompt tweetText) res.1] |}).
Proof.
  cbn zeta. unfold generateQuote, bind, call, emit, ret.
  destruct (openai_create _ _) as [[content|] w1]; reflexivity.
Qed.

(** One tweet: the request to the language model and, for a commentary
    that is not empty, the tweet call and the pause. *)
Lemma process_tweet_spec h t st :
  ∃ posted w',
    process_tweet h t st =
      (tt, {| world := w'; lastSeen := lastSeen st; userIds := userIds st;
              disk := disk st;
              trace := trace st ++
                tweet_events h t
                  (openai_create (prompt (text t)) (world st)).1 posted |}).
Proof.
  unfold process_tweet, generateQuote, postQuote, sleep, bind, call, emit,
    ret, tweet_events.
  destruct (openai_create (prompt (text t)) (world st)) as [[content|] w1];
    cbn.
  - destruct (JS.trim content) as [|c q] eqn:E; cbn.
    + exists false, w1. reflexivity.
    + destruct (twitter_tweet _ w1) as [posted w2] eqn:E2. cbn.
      exists posted, w2. rewrite <- !app_assoc. cbn.
      rewrite <- !app_assoc in E2. cbn in E2. reflexivity.
  - exists false, w1. reflexivity.
Qed.

Lemma for_each_process_spec h tweets : ∀ st,
  ∃ outcomes w',
    length outcomes = length tweets ∧
    for_each tweets (process_tweet h) st =
      (tt, {| world := w'; lastSeen := lastSeen st; userIds := userIds st;
              disk := disk st;
              trace := trace st ++ batch_events h tweets outcomes |}).
Proof.
  induction tweets as [|t ts IH]; intros st.
  - exists [], (world st). split; [done|].
    cbn. unfold ret. rewrite app_nil_r. by destruct st.
  - cbn [for_each]. unfold bind.
    destruct (process_tweet_spec h t st) as (posted & w1 & ->).
    match goal with |- context [for_each ts _ ?s] =>
      destruct (IH s) as (os & w2 & Hlen & ->) end.
    exists (((openai_create (prompt (text t)) (world st)).1, posted) :: os), w2.
    split; [cbn; lia|].
    cbn [batch_events fst snd world lastSeen userIds disk trace].
    by rewrite <- app_assoc.
Qed.

Lemma getNewTweets_spec uid h st :
  let url := tweets_url uid (JS.get (lastSeen st) h) in
  let res := axios_get_tweets url (world st) in
  getNewTweets uid h st =
    (rev (kept res.1),
     {| world := res.2; lastSeen := advance h (kept res.1) (lastSeen st);
        userIds := userIds st; disk := disk st;
        trace := trace st ++ [EvGetTweets url res.1] |}).
Proof.
  cbn zeta. unfold getNewTweets, bind, call, emit, ret, set_lastSeen, kept,
    advance.
  destruct (axios_get_tweets _ (world st)) as [[data|] w1]; cbn; [|done].
  destruct (List.filter is_original (default [] data)); cbn; done.
Qed.

Lemma poll_handle_skip h st :
  JS.truthy (JS.get (userIds st) h) = false → poll_handle h st = (tt, st).
Proof. unfold poll_handle, bind, ret. cbn. intros ->. done. Qed.

Lemma poll_handle_spec h st :
  JS.truthy (JS.get (userIds st) h) = true →
  let url := tweets_url (default [] (JS.get (userIds st) h)) (JS.get (lastSeen st) h) in
  let res := axios_get_tweets url (world st) in
  ∃ outcomes w',
    length outcomes = length (kept res.1) ∧
    poll_handle h st =
      (tt, {| world := w'; lastSeen := advance h (kept res.1) (lastSeen st);
              userIds := userIds st; disk := disk st;
              trace := trace st ++ [EvGetTweets url res.1]
                       ++ batch_events h (rev (kept res.1)) outcomes
                       ++ [EvTimer 60000] |}).
Proof.
  intros Hu. cbn zeta. unfold poll_handle, bind. cbn beta iota.
  rewrite Hu. cbn [negb].
  rewrite getNewTweets_spec. cbn zeta.
  set (res := axios_get_tweets _ _).
  match goal with |- context [for_each ?ts ?b ?s] =>
    destruct (for_each_process_spec h ts s) as (os & w2 & Hlen & ->) end.
  exists os, w2. split; [by rewrite Hlen, length_rev|].
  unfold sleep_detached, emit. cbn. by rewrite <- !app_assoc.
Qed.

(** The processing of one tweet, as the outer world sees it. *)
Lemma process_tweet_run h t st :
  process_tweet h t st =
    (tt, {| world := (tweet_run h t (world st)).2; lastSeen := lastSeen st;
            userIds := userIds st; disk := disk st;
            trace := trace st ++ (tweet_run h t (world st)).1 |}).
Proof.
  unfold process_tweet, generateQuote, postQuote, sleep, bind, call, emit,
    ret, tweet_run, reply_text.
  destruct (openai_create (prompt (text t)) (world st)) as [[content|] w1];
    cbn; [|done].
  destruct (JS.trim content) as [|c q] eqn:E; cbn; [done|].
  rewrite <- !app_assoc. cbn.
  destruct (twitter_tweet _ w1) as [posted w2]. cbn.
  by rewrite <- !app_assoc.
Qed.

Lemma for_each_process_run h tweets : ∀ st,
  for_each tweets (process_tweet h) st =
    (tt, {| world := (batch_run h tweets (world st)).2;
            lastSeen := lastSeen st; userIds := userIds st;
            disk := disk st;
            trace := trace st ++ (batch_run h tweets (world st)).1 |}).
Proof.
  induction tweets as [|t ts IH]; intros st.
  - cbn. unfold ret. rewrite app_nil_r. by destruct st.
  - cbn [for_each]. unfold bind. rewrite process_tweet_run, IH.
    cbn [batch_run fst snd world lastSeen userIds disk trace].
    by rewrite <- app_assoc.
Qed.

(** The turn of a handle that is not skipped, as the outer world sees
    it. *)
Lemma poll_handle_run h st :
  JS.truthy (JS.get (userIds st) h) = true →
  let url := tweets_url (default [] (JS.get (userIds st) h))
               (JS.get (lastSeen st) h) in
  let res := axios_get_tweets url (world st) in
  let run := batch_run h (rev (kept res.1)) res.2 in
  poll_handle h st =
    (tt, {| world := run.2;
            lastSeen := advance h (kept res.1) (lastSeen st);
            userIds := userIds st; disk := disk st;
            trace := trace st ++ [EvGetTweets url res.1] ++ run.1
                     ++ [EvTimer 60000] |}).
Proof.
  intros Hu. cbn zeta. unfold poll_handle, bind. cbn beta iota.
  rewrite Hu. cbn [negb].
  rewrite getNewTweets_spec. cbn zeta. rewrite for_each_process_run.
  unfold sleep_detached, emit. cbn. by rewrite <- !app_assoc.
Qed.


Lemma JS_set_lookup (m : gmap jsstring jsstring) (k v : jsstring) :
  k ≠ js "__proto__" → JS.set m k v !! k = Some v.
Proof.
  intros Hk. unfold JS.set. destruct (m !! k); [apply lookup_insert_eq|].
  rewrite bool_decide_eq_false_2 by done. apply lookup_insert_eq.
Qed.

Lemma JS_set_lookup_own (m : gmap jsstring jsstring) (k v w : jsstring) :
  m !! k = Some w → JS.set m k v !! k = Some v.
Proof. intros Hk. unfold JS.set. rewrite Hk. apply lookup_insert_eq. Qed.

Lemma JS_set_lookup_ne (m : gmap jsstring jsstring) (k k' v : jsstring) :
  k ≠ k' → JS.set m k v !! k' = m !! k'.
Proof.
  intros Hk. unfold JS.set.
  destruct (m !! k); [by rewrite lookup_insert_ne|].
  destruct (bool_decide _); [done|by rewrite lookup_insert_ne].
Qed.

Lemma JS_get_own (m : gmap jsstring jsstring) (k v : jsstring) :
  m !! k = Some v → JS.get m k = Some v.
Proof. intros Hk. unfold JS.get. by rewrite Hk. Qed.

(** What an object holds after an assignment: the value assigned, or what
    it held before. *)
Lemma JS_set_lookup_Some (m : gmap jsstring jsstring) (k k' v w : jsstring) :
  JS.set m k v !! k' = Some w →
  (k' = k ∧ w = v ∧ (k ≠ js "__proto__" ∨ is_Some (m !! k)))
  ∨ m !! k' = Some w.
Proof.
  unfold JS.set. destruct (m !! k) as [u|] eqn:Hk.
  - destruct (decide (k = k')) as [<-|Hne].
    + rewrite lookup_insert_eq. intros [= <-]. left.
      repeat split; try done. right. by eexists.
    + rewrite lookup_insert_ne by done. by right.
  - case_bool_decide as Hp; [by right|].
    destruct (decide (k = k')) as [<-|Hne].
    + rewrite lookup_insert_eq. intros [= <-]. left.
      repeat split; try done. by left.
    + rewrite lookup_insert_ne by done. by right.
Qed.

(** An assignment removes no property. *)
Lemma JS_set_keeps (m : gmap jsstring jsstring) (k k' v : jsstring) :
  is_Some (m !! k') → is_Some (JS.set m k v !! k').
Proof.
  intros Hk. destruct (decide (k = k')) as [<-|Hne].
  - destruct Hk as [w Hw]. rewrite (JS_set_lookup_own _ _ _ w Hw). by eexists.
  - by rewrite JS_set_lookup_ne.
Qed.

End Poll.

Section PollClaims.
Context `{Platform}.

Lemma elem_of_rev {A} (x : A) (l : list A) : x ∈ rev l ↔ x ∈ l.
Proof. rewrite !list_elem_of_In. symmetry. apply in_rev. Qed.

Lemma kept_elem t res :
  t ∈ kept res →
  ∃ data, res = Some data ∧ t ∈ default [] data ∧ is_original t = true.
Proof.
  unfold kept. destruct res as [data|]; [|by intros ?%elem_of_nil].
  intros Hin. apply list_elem_of_In, filter_In in Hin as [Hin Ho].
  exists data. split; [done|]. split; [by apply list_elem_of_In|done].
Qed.

(** The loop of [poll]: nothing is written, and the user IDs and the disk
    are as before. *)
Lemma poll_loop_spec handles : ∀ st,
  ∃ st' evs,
    for_each handles poll_handle st = (tt, st') ∧
    userIds st' = userIds st ∧ disk st' = disk st ∧
    trace st' = trace st ++ evs ∧
    written_paths evs = [].
Proof.
  induction handles as [|h hs IH]; intros st.
  - exists st, []. cbn. unfold ret. by rewrite app_nil_r.
  - cbn [for_each]. unfold bind.
    destruct (JS.truthy (JS.get (userIds st) h)) eqn:Hu.
    + destruct (poll_handle_spec h st Hu) as (os & w1 & Hlen & ->).
      match goal with |- context [for_each hs _ ?s] =>
        destruct (IH s) as (st' & evs & -> & Hids & Hdisk & Htr & Hw)
      end.
      cbn [userIds disk trace] in *.
      eexists st', _. split; [done|]. split; [done|]. split; [done|].
      split. { rewrite Htr, <- app_assoc. reflexivity. }
      rewrite !written_paths_app, batch_events_paths, Hw. done.
    + rewrite (poll_handle_skip h st Hu).
      destruct (IH st) as (st' & evs & -> & Hids & Hdisk & Htr & Hw).
      by exists st', evs.
Qed.

(** A tweet call among the events of one tweet comes right after the
    request to the language model, whose answer it carries. *)
Lemma tweet_run_tweet h t w ft p :
  EvTweet ft p ∈ (tweet_run h t w).1 →
  ∃ content,
    (tweet_run h t w).1 =
      [EvCompletion (prompt (text t)) (Some content); EvTweet ft p;
       EvSleep 2000] ∧
    JS.trim content ≠ [] ∧
    ft = reply_text (JS.trim content) h (id t).
Proof.
  unfold tweet_run.
  destruct (openai_create (prompt (text t)) w).1 as [content|] eqn:Ha;
    cbn [fmap option_fmap option_map].
  - destruct (JS.trim content) as [|c q] eqn:E; cbn [fst].
    + intros Hin. apply elem_of_cons in Hin as [Hin|Hin]; [done|].
      by apply elem_of_nil in Hin.
    + intros Hin. exists content. rewrite E.
      apply elem_of_cons in Hin as [Hin|Hin]; [done|].
      apply elem_of_cons in Hin as [Hin|Hin].
      * injection Hin as -> ->. done.
      * apply elem_of_cons in Hin as [Hin|Hin]; [done|].
        by apply elem_of_nil in Hin.
  - cbn [fst]. intros Hin. apply elem_of_cons in Hin as [Hin|Hin]; [done|].
    by apply elem_of_nil in Hin.
Qed.

Lemma batch_run_tweet h tweets : ∀ w ft p,
  EvTweet ft p ∈ (batch_run h tweets w).1 →
  ∃ t content pre post,
    t ∈ tweets ∧
    (batch_run h tweets w).1 =
      pre ++ [EvCompletion (prompt (text t)) (Some content); EvTweet ft p]
      ++ post ∧
    JS.trim content ≠ [] ∧
    ft = reply_text (JS.trim content) h (id t).
Proof.
  induction tweets as [|t ts IH]; intros w ft p Hin;
    [by apply elem_of_nil in Hin|].
  cbn [batch_run fst] in *. apply elem_of_app in Hin as [Hin|Hin].
  - destruct (tweet_run_tweet _ _ _ _ _ Hin) as (content & -> & Hne & ->).
    exists t, content, [], (EvSleep 2000 :: (batch_run h ts
      (tweet_run h t w).2).1).
    split; [left|]. done.
  - destruct (IH _ _ _ Hin) as (t' & content & pre & post & Ht & -> & Hne & ->).
    exists t', content, ((tweet_run h t w).1 ++ pre), post.
    split; [by right|]. by rewrite <- app_assoc.
Qed.

(** A tweet call in the turn of a handle: the handle has a user ID, and
    the call comes right after the request to the language model for a
    tweet that the request of this turn has fetched and the filter has
    kept. *)
Lemma poll_handle_tweet h st ft p :
  EvTweet ft p ∈ since st (poll_handle h st).2 →
  JS.truthy (JS.get (userIds st) h) = true ∧
  ∃ t content pre post,
    t ∈ kept (axios_get_tweets
                (tweets_url (default [] (JS.get (userIds st) h))
                   (JS.get (lastSeen st) h)) (world st)).1 ∧
    since st (poll_handle h st).2 =
      pre ++ [EvCompletion (prompt (text t)) (Some content); EvTweet ft p]
      ++ post ∧
    JS.trim content ≠ [] ∧
    ft = reply_text (JS.trim content) h (id t).
Proof.
  destruct (JS.truthy (JS.get (userIds st) h)) eqn:Hu.
  - rewrite (poll_handle_run h st Hu). cbn zeta. cbn [snd].
    erewrite since_app by reflexivity.
    intros Hin. split; [done|].
    apply elem_of_cons in Hin as [Hin|Hin]; [done|].
    apply elem_of_app in Hin as [Hin|Hin];
      [|apply list_elem_of_singleton in Hin; done].
    destruct (batch_run_tweet _ _ _ _ _ Hin)
      as (t & content & pre & post & Ht & -> & Hne & ->).
    rewrite elem_of_rev in Ht.
    eexists t, content, (_ :: pre), (post ++ [EvTimer 60000]).
    split; [done|]. split; [|done].
    cbn [app]. by rewrite <- !app_assoc.
  - rewrite (poll_handle_skip h st Hu). cbn [snd]. unfold since.
    rewrite drop_all. by intros ?%elem_of_nil.
Qed.

(** The events of the loop of [poll] are those of the turn of its first
    handle followed by those of the turns of the others. *)
Lemma poll_loop_since h hs st :
  let st1 := (poll_handle h st).2 in
  since st (for_each (h :: hs) poll_handle st).2 =
    since st st1 ++ since st1 (for_each hs poll_handle st1).2 ∧
  for_each (h :: hs) poll_handle st = for_each hs poll_handle st1.
Proof.
  cbn zeta. cbn [for_each]. unfold bind.
  assert (Htr1 : ∃ evs1, trace (poll_handle h st).2 = trace st ++ evs1).
  { destruct (JS.truthy (JS.get (userIds st) h)) eqn:Hu.
    - rewrite (poll_handle_run h st Hu). cbn zeta. by eexists.
    - rewrite (poll_handle_skip h st Hu). exists []. by rewrite app_nil_r. }
  destruct Htr1 as [evs1 Htr1].
  destruct (poll_handle h st) as [[] st1]. cbn [snd] in *.
  split; [|done].
  destruct (poll_loop_spec hs st1) as (st2 & evs2 & -> & _ & _ & Htr2 & _).
  cbn [snd].
  rewrite (since_app st st1 evs1 Htr1), (since_app st1 st2 evs2 Htr2).
  apply since_app. by rewrite Htr2, Htr1, app_assoc.
Qed.

(** A tweet call in the loop of [poll] is one of the turn of a handle. *)
Lemma poll_loop_tweet handles : ∀ st ft p,
  EvTweet ft p ∈ since st (for_each handles poll_handle st).2 →
  ∃ before handle after,
    handles = before ++ handle :: after ∧
    EvTweet ft p ∈
      since (for_each before poll_handle st).2
        (poll_handle handle (for_each before poll_handle st).2).2.
Proof.
  induction handles as [|h hs IH]; intros st ft p Hin.
  - cbn in Hin. unfold since in Hin. rewrite drop_all in Hin.
    by apply elem_of_nil in Hin.
  - destruct (poll_loop_since h hs st) as [Hs _]. cbn zeta in Hs.
    rewrite Hs in Hin. apply elem_of_app in Hin as [Hin|Hin].
    + by exists [], h, hs.
    + destruct (IH _ _ _ Hin) as (before & handle & after & -> & Hin').
      exists (h :: before), handle, after. split; [done|].
      destruct (poll_loop_since h before st) as [_ ->]. done.
Qed.

Lemma writeFileSync_spec path content st :
  let res := fs_write path (world st) in
  writeFileSync path content st =
    (res.1,
     {| world := res.2; lastSeen := lastSeen st; userIds := userIds st;
        disk := if res.1
                then <[path := FileText (JS.toWellFormed content)]> (disk st)
                else disk st;
        trace := trace st ++ [EvWrite path content res.1] |}).
Proof.
  cbn zeta. unfold writeFileSync, bind, call, emit, ret.
  destruct (fs_write path (world st)) as [[|] w1]; reflexivity.
Qed.

(** The whole of [poll]: the turns of the handles and one write. *)
Lemma poll_for_spec handles st :
  let st1 := (for_each handles poll_handle st).2 in
  poll_for handles st =
    (tt, (writeFileSync lastSeenFile (JSON.stringify (lastSeen st1)) st1).2).
Proof.
  cbn zeta. unfold poll_for, bind, ret.
  destruct (for_each handles poll_handle st) as [[] st1]. cbn.
  by destruct (writeFileSync _ _ st1).
Qed.

End PollClaims.

Section PollTheorems.
Context `{Platform}.


(** C5: when [generateQuote] fails or gives an empty commentary for a
    tweet, [poll] does nothing for this tweet but the request to the
    language model: no text is published, and the loop goes on with the
    tweets that follow, every one of which is sent to the language
    model. *)
Theorem failed_generation_skips_publish
    (handle : jsstring) (tweet : Tweet) (following : list Tweet)
    (st : State) :
  JS.truthy (generateQuote (text tweet) st).1 = false →
  process_tweet handle tweet st = (tt, (generateQuote (text tweet) st).2) ∧
  published_texts (since st (process_tweet handle tweet st).2) = [] ∧
  for_each (tweet :: following) (process_tweet handle) st
    = for_each following (process_tweet handle)
        (generateQuote (text tweet) st).2 ∧
  completion_prompts
      (since st (for_each (tweet :: following) (process_tweet handle) st).2)
    = map (λ t, prompt (text t)) (tweet :: following).
Proof.
  intros Hq.
  assert (Hp : process_tweet handle tweet st
               = (tt, (generateQuote (text tweet) st).2)).
  { unfold process_tweet, bind.
    destruct (generateQuote (text tweet) st) as [q st1]. cbn in *.
    by rewrite Hq. }
  split; [done|]. split.
  { rewrite Hp, generateQuote_spec. cbn zeta. cbn [snd].
    by erewrite since_app by reflexivity. }
  split.
  { cbn [for_each]. unfold bind. by rewrite Hp. }
  destruct (for_each_process_spec handle (tweet :: following) st)
    as (os & w' & Hlen & ->).
  cbn [snd]. erewrite since_app by reflexivity.
  by apply batch_events_prompts.
Qed.

(** C9: a text that a poll cycle publishes is published in the turn of
    one of the handles of the cycle, a handle that has a user ID.  In this
    turn the call that publishes it comes right after the request to the
    language model for a tweet that the timeline request of the turn, the
    one for the user ID of the handle, has fetched and the filter has
    kept.  The text is the answer to this request, trimmed and not empty,
    followed by a space, the mention of the handle, two line feeds and
    the link to the tweet. *)
Theorem published_reply_text
    (handles : list jsstring) (st : State) (fullText : jsstring)
    (posted : bool) :
  EvTweet fullText posted ∈ since st (poll_for handles st).2 →
  ∃ before handle after tweet content pre post,
    handles = before ++ handle :: after ∧
    let turn := (for_each before poll_handle st).2 in
    JS.truthy (JS.get (userIds turn) handle) = true ∧
    tweet ∈ kept (axios_get_tweets
                    (tweets_url (default [] (JS.get (userIds turn) handle))
                       (JS.get (lastSeen turn) handle)) (world turn)).1 ∧
    since turn (poll_handle handle turn).2 =
      pre ++ [EvCompletion (prompt (text tweet)) (Some content);
              EvTweet fullText posted] ++ post ∧
    JS.trim content ≠ [] ∧
    fullText = JS.trim content ++ js " " ++ js "@" ++ handle ++ [10; 10]
               ++ js "https://twitter.com/i/web/status/" ++ id tweet.
Proof.
  rewrite poll_for_spec. cbn zeta.
  destruct (poll_loop_spec handles st)
    as (st1 & evs & Heq & Hids & Hdisk & Htr & Hw).
  assert (Hs : since st (for_each handles poll_handle st).2 = evs).
  { rewrite Heq. by apply since_app. }
  rewrite Heq. cbn [snd]. rewrite writeFileSync_spec. cbn zeta. cbn [snd].
  erewrite since_app; [|cbn [trace]; rewrite Htr, <- app_assoc; reflexivity].
  intros Hin. apply elem_of_app in Hin as [Hin|Hin];
    [|by apply list_elem_of_singleton in Hin].
  rewrite <- Hs in Hin.
  destruct (poll_loop_tweet _ _ _ _ Hin)
    as (before & handle & after & -> & Hturn).
  destruct (poll_handle_tweet _ _ _ _ Hturn)
    as (Hu & tweet & content & pre & post & Ht & Hev & Hne & ->).
  by exists before, handle, after, tweet, content, pre, post.
Qed.

(** C4, as the code has it: a poll cycle ends with one call of
    [fs.writeFileSync], on [lastSeen.json], with the JSON text of the
    watermarks; when the call returns, the file holds this text.  The cycle
    writes no other file: [userIds.json] is as it was, and so is the mapping
    of the user IDs, which only [initializeLastSeen] saves. *)
Theorem poll_saves_the_watermarks_only
    (handles : list jsstring) (st : State) :
  let st' := (poll_for handles st).2 in
  ∃ evs written,
    since st st'
      = evs ++ [EvWrite lastSeenFile (JSON.stringify (lastSeen st')) written]
    ∧ written_paths evs = []
    ∧ userIds st' = userIds st
    ∧ disk st' !! userIdFile = disk st !! userIdFile
    ∧ disk st' !! lastSeenFile
      = if written
        then Some (FileText (JS.toWellFormed (JSON.stringify (lastSeen st'))))
        else disk st !! lastSeenFile.
Proof.
  cbn zeta. rewrite poll_for_spec. cbn zeta.
  destruct (poll_loop_spec handles st)
    as (st1 & evs & -> & Hids & Hdisk & Htr & Hw).
  cbn [snd]. rewrite writeFileSync_spec. cbn zeta.
  cbn [snd lastSeen userIds disk trace].
  exists evs, (fs_write lastSeenFile (world st1)).1.
  split. { erewrite since_app; [done|]. cbn [trace]. by rewrite Htr, <- app_assoc. }
  split; [done|]. split; [done|].
  destruct (fs_write lastSeenFile (world st1)).1.
  - split; [|apply lookup_insert_eq].
    rewrite lookup_insert_ne; [by rewrite Hdisk|]. vm_compute. done.
  - by rewrite Hdisk.
Qed.

End PollTheorems.



Lemma failed_generation_witness :
  JS.truthy (@generateQuote demo (js "btc") demo_start).1 = false ∧
  published_texts
    (since demo_start (@process_tweet demo (js "AzoniNFT") P2 demo_start).2)
    = [].
Proof.
  split; [reflexivity|].
  apply (@failed_generation_skips_publish demo (js "AzoniNFT") P2 [P3]
           demo_start).
  reflexivity.
Defined.

Lemma published_reply_witness :
  ∃ before handle after tweet content pre post,
    [js "AzoniNFT"] = before ++ handle :: after ∧
    let turn := (for_each before (@poll_handle demo) demo_start).2 in
    JS.truthy (JS.get (userIds turn) handle) = true ∧
    tweet ∈ kept (@axios_get_tweets demo
                    (tweets_url (default [] (JS.get (userIds turn) handle))
                       (JS.get (lastSeen turn) handle)) (world turn)).1 ∧
    since turn (@poll_handle demo handle turn).2 =
      pre ++ [EvCompletion (prompt (text tweet)) (Some content);
              EvTweet (js "up only @AzoniNFT" ++ [10; 10]
                       ++ js "https://twitter.com/i/web/status/101") true]
      ++ post ∧
    JS.trim content ≠ [] ∧
    js "up only @AzoniNFT" ++ [10; 10]
      ++ js "https://twitter.com/i/web/status/101"
    = JS.trim content ++ js " " ++ js "@" ++ handle ++ [10; 10]
      ++ js "https://twitter.com/i/web/status/" ++ id tweet.
Proof.
  apply (@published_reply_text demo [js "AzoniNFT"] demo_start _ true).
  vm_compute. do 2 apply list_elem_of_further. apply list_elem_of_here.
Defined.

(** C4, as it is stated, fails: after a poll cycle that has a user ID in
    memory, [lastSeen.json] alone has been written and there is no
    [userIds.json]. *)
Lemma poll_does_not_save_the_user_ids :
  userIds (@poll demo demo_start).2 !! js "AzoniNFT" = Some (js "42") ∧
  written_paths (trace (@poll demo demo_start).2) = [lastSeenFile] ∧
  disk (@poll demo demo_start).2 !! userIdFile = None.
Proof. vm_compute. done. Qed.

(** C1 at a tweet that answers nobody and so comes without
    [in_reply_to_user_id]: the filter drops it, and the cycle sends nothing
    to the language model and publishes nothing. *)
Theorem tweet_without_reply_field_is_dropped :
  has_reply_target plain = false ∧
  (axios_get_tweets
     (tweets_url (js "42") None) (world demo_plain_start)).1
    = Some (Some [plain]) ∧
  (@getNewTweets demo_plain (js "42") (js "AzoniNFT") demo_plain_start).1
    = [] ∧
  completion_prompts (trace (@poll demo_plain demo_plain_start).2) = [] ∧
  published_texts (trace (@poll demo_plain demo_plain_start).2) = [].
Proof. vm_compute. done. Qed.

(** * The watermark *)

Section Watermark.
Context `{Platform}.
Variable newer : jsstring → jsstring → Prop.
Hypothesis newer_trans : ∀ a b c, newer a b → newer b c → newer a c.
Hypothesis api : honours_since_id newer.

Lemma poll_handle_lastSeen h st :
  lastSeen (poll_handle h st).2 =
    if JS.truthy (JS.get (userIds st) h)
    then advance h
           (kept (axios_get_tweets
                    (tweets_url (default [] (JS.get (userIds st) h))
                       (JS.get (lastSeen st) h)) (world st)).1)
           (lastSeen st)
    else lastSeen st.
Proof.
  destruct (JS.truthy (JS.get (userIds st) h)) eqn:Hu.
  - by destruct (poll_handle_spec h st Hu) as (os & w' & _ & ->).
  - by rewrite poll_handle_skip.
Qed.

Lemma poll_handle_userIds h st : userIds (poll_handle h st).2 = userIds st.
Proof.
  destruct (JS.truthy (JS.get (userIds st) h)) eqn:Hu.
  - by destruct (poll_handle_spec h st Hu) as (os & w' & _ & ->).
  - by rewrite poll_handle_skip.
Qed.

Lemma advance_other (h h' : jsstring) (tweets : list Tweet)
    (m : gmap jsstring jsstring) :
  h ≠ h' → advance h' tweets m !! h = m !! h.
Proof.
  intros Hne. destruct tweets as [|first more]; [done|].
  cbn [advance]. by apply JS_set_lookup_ne.
Qed.

(** What a response to a request with [since_id] keeps is newer than the
    ID that was asked for. *)
Lemma kept_newer uid w wd t :
  JS.truthy (Some w) = true →
  t ∈ kept (axios_get_tweets (tweets_url uid (Some w)) wd).1 →
  id t ≠ [] ∧ newer w (id t).
Proof.
  intros Hw Hin. destruct (kept_elem _ _ Hin) as (data & Hres & Hd & _).
  destruct data as [tweets|]; [|by apply elem_of_nil in Hd].
  pose proof (api uid w wd tweets Hw Hres) as Hall.
  rewrite Forall_forall in Hall. by apply Hall.
Qed.

Lemma truthy_nonempty (s : jsstring) : s ≠ [] → JS.truthy (Some s) = true.
Proof. by destruct s. Qed.

Lemma poll_handle_not_older h w0 h' st :
  not_older newer h w0 st → not_older newer h w0 (poll_handle h' st).2.
Proof.
  intros (w & Hw & Ht & Hor). unfold not_older.
  rewrite poll_handle_lastSeen.
  destruct (JS.truthy (JS.get (userIds st) h')) eqn:Hu; [|by exists w].
  destruct (decide (h = h')) as [<-|Hne];
    [|rewrite advance_other by done; by exists w].
  rewrite (JS_get_own _ _ _ Hw).
  destruct (kept _) as [|first more] eqn:Hk; [by exists w|].
  assert (Hin : first ∈ kept (axios_get_tweets
            (tweets_url (default [] (JS.get (userIds st) h)) (Some w))
            (world st)).1) by (rewrite Hk; left).
  apply kept_newer in Hin as [Hne Hnew]; [|done].
  exists (id first). cbn [advance].
  split; [by eapply JS_set_lookup_own|].
  split; [by apply truthy_nonempty|].
  right. destruct Hor as [->|Hor]; [done|]. by eapply newer_trans.
Qed.

Lemma poll_loop_not_older h w0 handles : ∀ st,
  not_older newer h w0 st → not_older newer h w0 (for_each handles poll_handle st).2.
Proof.
  induction handles as [|h' hs IH]; intros st Hst; [done|].
  cbn [for_each]. unfold bind.
  pose proof (poll_handle_not_older h w0 h' st Hst) as Hst'.
  destruct (poll_handle h' st) as [[] st1]. by apply IH.
Qed.

Lemma poll_for_lastSeen handles st :
  lastSeen (poll_for handles st).2
    = lastSeen (for_each handles poll_handle st).2.
Proof.
  rewrite poll_for_spec. cbn zeta. cbn [snd].
  by rewrite writeFileSync_spec.
Qed.

Lemma poll_for_not_older h w0 handles st :
  not_older newer h w0 st → not_older newer h w0 (poll_for handles st).2.
Proof.
  intros Hst. unfold not_older. rewrite poll_for_lastSeen.
  by apply poll_loop_not_older.
Qed.

(** The tweets that the filter keeps of a response that is sorted, newest
    first, are sorted too: the first of them is the newest. *)
Lemma kept_newest_first url w first more :
  newest_first newer →
  kept (axios_get_tweets url w).1 = first :: more →
  Forall (λ t, newer (id t) (id first)) more.
Proof.
  intros Hsorted Hk.
  destruct (axios_get_tweets url w).1 as [[tweets|]|] eqn:Hres;
    try discriminate Hk.
  specialize (Hsorted url w tweets Hres).
  unfold kept, default, from_option, Datatypes.id in Hk.
  clear Hres. induction Hsorted as [|t ts Hts IH Hall]; [discriminate|].
  cbn [List.filter] in Hk. destruct (is_original t).
  - injection Hk as -> <-. apply Forall_forall. intros x Hx.
    apply list_elem_of_In, filter_In in Hx as [Hx _].
    rewrite List.Forall_forall in Hall. by apply Hall.
  - by apply IH.
Qed.

(** C2: a handle with a watermark has, after a poll cycle, the same
    watermark or a newer one, provided the API answers a request with
    [since_id] by newer tweets only, newest first.  On the turn of the
    handle the watermark stays as it is when the handle is skipped or no
    tweet is kept; otherwise it becomes the ID of the first tweet kept,
    which is newer than the watermark was and than which every other tweet
    kept is older. *)
Theorem watermark_never_decreases
    (handles : list jsstring) (handle w0 : jsstring) (st : State) :
  newest_first newer →
  lastSeen st !! handle = Some w0 →
  JS.truthy (Some w0) = true →
  (∃ w1, lastSeen (poll_for handles st).2 !! handle = Some w1
         ∧ (w1 = w0 ∨ newer w0 w1))
  ∧ if JS.truthy (JS.get (userIds st) handle)
    then match kept (axios_get_tweets
                       (tweets_url (default [] (JS.get (userIds st) handle))
                          (Some w0)) (world st)).1 with
         | first :: more =>
             lastSeen (poll_handle handle st).2 !! handle = Some (id first)
             ∧ newer w0 (id first)
             ∧ Forall (λ t, newer (id t) (id first)) more
         | [] => lastSeen (poll_handle handle st).2 !! handle = Some w0
         end
    else lastSeen (poll_handle handle st).2 !! handle = Some w0.
Proof.
  intros Hsorted Hw Ht. split.
  - destruct (poll_for_not_older handle w0 handles st) as (w1 & ? & _ & ?).
    + exists w0. auto.
    + by exists w1.
  - rewrite poll_handle_lastSeen, (JS_get_own _ _ _ Hw).
    destruct (JS.truthy (JS.get (userIds st) handle)); [|done].
    destruct (kept _) as [|first more] eqn:Hk; [done|].
    cbn [advance]. split; [by eapply JS_set_lookup_own|].
    split.
    + assert (Hin : first ∈ kept (axios_get_tweets
            (tweets_url (default [] (JS.get (userIds st) handle)) (Some w0))
            (world st)).1) by (rewrite Hk; left).
      by apply kept_newer in Hin as [_ Hnew].
    + by eapply kept_newest_first.
Qed.

End Watermark.

Section Later.
Context `{Platform}.
Variable newer : jsstring → jsstring → Prop.
Hypothesis newer_irrefl : ∀ a, ¬ newer a a.
Hypothesis newer_trans : ∀ a b c, newer a b → newer b c → newer a c.
Hypothesis api : honours_since_id newer.

Lemma later_trans st1 st2 st3 : later st1 st2 → later st2 st3 → later st1 st3.
Proof. induction 2; [done|by apply later_turn|by apply later_save]. Qed.

Lemma later_turns handles : ∀ st st',
  later st st' → later st (for_each handles poll_handle st').2.
Proof.
  induction handles as [|h hs IH]; intros st st' Hl; [done|].
  cbn [for_each]. unfold bind.
  pose proof (later_turn st st' h Hl) as Hl'.
  destruct (poll_handle h st') as [[] st1]. by apply IH.
Qed.

(** A whole poll cycle, and any number of them, lead to later states. *)
Lemma later_poll handles st st' :
  later st st' → later st (poll_for handles st').2.
Proof.
  intros Hl. rewrite poll_for_spec. cbn zeta. cbn [snd].
  by apply later_save, later_turns.
Qed.

Lemma later_cycles handles cycles : ∀ st st',
  later st st' → later st (startPolling_for handles cycles st').2.
Proof.
  induction cycles as [|n IH]; intros st st' Hl; [done|].
  cbn [startPolling_for]. unfold bind.
  pose proof (later_poll handles st st' Hl) as Hl'.
  destruct (poll_for handles st') as [[] st1]. by apply IH.
Qed.

Lemma later_not_older h w0 st st' :
  not_older newer h w0 st → later st st' → not_older newer h w0 st'.
Proof.
  intros Hst. induction 1 as [|st' h' _ IH|st' _ IH]; [done| |].
  - by apply poll_handle_not_older.
  - unfold not_older. by rewrite writeFileSync_spec.
Qed.



End Later.

(** ** The platform [script] keeps the contract of [since_id] *)

Lemma starts_with_app (p s : jsstring) : starts_with p (p ++ s) = true.
Proof.
  induction p as [|c p IH]; [done|].
  cbn. by rewrite N.eqb_refl, IH.
Qed.

Lemma since_ids_unfold (url : jsstring) :
  since_ids url =
    (if starts_with (js "since_id=") url
     then [drop (length (js "since_id=")) url] else [])
    ++ match url with
       | _ :: url' => since_ids url'
       | [] => []
       end.
Proof. by destruct url. Qed.

Lemma since_ids_here (s : jsstring) : s ∈ since_ids (js "since_id=" ++ s).
Proof.
  rewrite since_ids_unfold, starts_with_app, drop_app_length.
  apply elem_of_app. left. left.
Qed.

Lemma since_ids_app_r (a b x : jsstring) :
  x ∈ since_ids b → x ∈ since_ids (a ++ b).
Proof.
  intros Hx. induction a as [|c a IH]; [done|].
  rewrite since_ids_unfold. apply elem_of_app. by right.
Qed.

Lemma since_ids_tweets_url (userId s : jsstring) :
  JS.truthy (Some s) = true → s ∈ since_ids (tweets_url userId (Some s)).
Proof.
  intros Hs. unfold tweets_url. rewrite Hs.
  change (default [] (Some s)) with s.
  change (js "&since_id=") with ([38] ++ js "since_id=").
  rewrite !app_assoc. rewrite <- (app_assoc _ (js "since_id=") s).
  apply since_ids_app_r, since_ids_here.
Qed.


Lemma id_newer_trans (a b c : jsstring) :
  id_newer a b → id_newer b c → id_newer a c.
Proof. unfold id_newer. lia. Qed.

Lemma script_honours_since_id users timeline answer :
  @honours_since_id (script users timeline answer) id_newer.
Proof.
  intros userId s w tweets Hs Hres. cbn in Hres.
  injection Hres as <-. apply Forall_forall. intros t Hin.
  apply list_elem_of_In, filter_In in Hin as [_ Hall].
  unfold newer_than_all in Hall. rewrite forallb_forall in Hall.
  pose proof (since_ids_tweets_url userId s Hs) as Hmem.
  apply list_elem_of_In, Hall, N.ltb_lt in Hmem.
  split; [|done].
  intros Hnil. rewrite Hnil in Hmem. cbn in Hmem. lia.
Qed.

(** With a timeline that is sorted, newest first, the responses of
    [script] are sorted too. *)
Lemma script_newest_first users timeline answer :
  StronglySorted (λ a b, id_newer (id b) (id a)) timeline →
  @newest_first (script users timeline answer) id_newer.
Proof.
  intros Hsorted url w tweets Hres. cbn in Hres. injection Hres as <-.
  clear w. induction Hsorted as [|t ts Hts IH Hall]; [constructor|].
  cbn [List.filter]. destruct (newer_than_all _ t); [|done].
  constructor; [done|].
  apply List.Forall_forall. intros x Hx. apply filter_In in Hx as [Hx _].
  rewrite List.Forall_forall in Hall. by apply Hall.
Qed.

Lemma demo_timeline_sorted :
  StronglySorted (λ a b, id_newer (id b) (id a)) [P3; P2; P1].
Proof. repeat constructor. Qed.

Lemma watermark_never_decreases_witness :
  (∃ w1, lastSeen (@poll demo demo_seen).2 !! js "AzoniNFT" = Some w1
         ∧ (w1 = js "101" ∨ id_newer (js "101") w1))
  ∧ lastSeen (@poll_handle demo (js "AzoniNFT") demo_seen).2 !! js "AzoniNFT"
    = Some (js "103")
  ∧ id_newer (js "101") (js "103")
  ∧ Forall (λ t, id_newer (id t) (js "103")) [P2].
Proof.
  apply (@watermark_never_decreases demo id_newer id_newer_trans
           (script_honours_since_id _ _ _)
           userHandles (js "AzoniNFT") (js "101") demo_seen
           (script_newest_first _ _ _ demo_timeline_sorted));
    reflexivity.
Defined.



(** * Bootstrap *)

Section Bootstrap.
Context `{Platform}.

Lemma getUserId_spec username st :
  let res := axios_get_user (user_url username) (world st) in
  getUserId username st =
    (res.1,
     {| world := res.2; lastSeen := lastSeen st; userIds := userIds st;
        disk := disk st;
        trace := trace st ++ [EvGetUser (user_url username) res.1] |}).
Proof.
  cbn zeta. unfold getUserId, bind, call, emit, ret, user_url.
  by destruct (axios_get_user _ _).
Qed.

Lemma getLatestTweet_spec userId st :
  let res := axios_get_tweets (latest_url userId) (world st) in
  getLatestTweet userId st =
    (match res.1 with
     | Some (Some (t :: _)) => Some (Some (id t))
     | Some _ => Some None
     | None => None
     end,
     {| world := res.2; lastSeen := lastSeen st; userIds := userIds st;
        disk := disk st;
        trace := trace st ++ [EvGetTweets (latest_url userId) res.1] |}).
Proof.
  cbn zeta. unfold getLatestTweet, bind, call, emit, ret, latest_url.
  destruct (axios_get_tweets _ _) as [[[[|t ts]|]|] w1]; reflexivity.
Qed.

(** One turn of the bootstrap loop touches neither the state of the
    program nor the disk, and writes nothing. *)
Lemma initialize_handle_frame h acc st :
  ∃ evs w',
    (initialize_handle h acc st).2 =
      {| world := w'; lastSeen := lastSeen st; userIds := userIds st;
         disk := disk st; trace := trace st ++ evs |}
    ∧ written_paths evs = [].
Proof.
  destruct acc as [nls nui]. unfold initialize_handle, bind.
  rewrite getUserId_spec. cbn zeta.
  destruct (axios_get_user (user_url h) (world st)) as [[uid|] w1];
    cbn [fst snd].
  - unfold sleep, emit at 1. cbn beta iota.
    rewrite getLatestTweet_spec. cbn zeta. cbn [world trace].
    destruct (axios_get_tweets (latest_url uid) w1) as [r w2]. cbn [fst snd].
    exists [EvGetUser (user_url h) (Some uid); EvSleep (300 * 1000);
            EvGetTweets (latest_url uid) r], w2.
    split; [|done].
    destruct r as [[[|t ts]|]|]; try destruct (JS.truthy (Some (id t)));
      cbn [ret snd lastSeen userIds disk trace];
      rewrite <- !app_assoc; reflexivity.
  - eexists _, w1. split; reflexivity.
Qed.

(** The new mappings after one turn. *)
Lemma initialize_handle_acc h acc st :
  (initialize_handle h acc st).1 =
    match (axios_get_user (user_url h) (world st)).1 with
    | Some userId =>
        (match (axios_get_tweets (latest_url userId)
                  (axios_get_user (user_url h) (world st)).2).1 with
         | Some (Some (t :: _)) =>
             if JS.truthy (Some (id t)) then JS.set acc.1 h (id t)
             else acc.1
         | _ => acc.1
         end,
         JS.set acc.2 h userId)
    | None => acc
    end.
Proof.
  destruct acc as [nls nui]. unfold initialize_handle, bind.
  rewrite getUserId_spec. cbn zeta.
  destruct (axios_get_user (user_url h) (world st)) as [[uid|] w1];
    cbn [fst snd]; [|done].
  unfold sleep, emit at 1. cbn beta iota.
  rewrite getLatestTweet_spec. cbn zeta. cbn [world trace].
  destruct (axios_get_tweets (latest_url uid) w1) as [[[[|t ts]|]|] w2];
    cbn [fst snd]; try done.
  change (JS.truthy (Some (id t))) with (JS.truthy (Some (id t))).
  by destruct (JS.truthy (Some (id t))).
Qed.

Lemma initialize_handles_frame handles : ∀ acc st,
  ∃ evs w',
    (initialize_handles handles acc st).2 =
      {| world := w'; lastSeen := lastSeen st; userIds := userIds st;
         disk := disk st; trace := trace st ++ evs |}
    ∧ written_paths evs = [].
Proof.
  induction handles as [|h hs IH]; intros acc st.
  - exists [], (world st). cbn. rewrite app_nil_r. by destruct st.
  - cbn [initialize_handles]. unfold bind.
    destruct (initialize_handle_frame h acc st) as (evs1 & w1 & Hst & Hw1).
    destruct (initialize_handle h acc st) as [acc1 st1]. cbn [snd] in Hst.
    destruct (IH acc1 st1) as (evs2 & w2 & -> & Hw2). subst st1.
    exists (evs1 ++ evs2), w2. cbn [lastSeen userIds disk trace].
    rewrite written_paths_app, Hw1, Hw2, app_assoc. done.
Qed.







(** The end of [initializeLastSeen]: [lastSeen.json] is written, and
    [userIds.json] after it when the first write has returned. *)
Lemma initializeLastSeen_for_spec handles st :
  let loop := initialize_handles handles (∅, ∅) st in
  let w1 := writeFileSync lastSeenFile (JSON.stringify loop.1.1) loop.2 in
  initializeLastSeen_for handles st =
    (loop.1,
     if w1.1
     then (writeFileSync userIdFile (JSON.stringify loop.1.2) w1.2).2
     else w1.2).
Proof.
  cbn zeta. unfold initializeLastSeen_for, bind at 1.
  destruct (initialize_handles handles (∅, ∅) st) as [acc st1].
  unfold bind at 1. cbn [fst snd].
  destruct (writeFileSync lastSeenFile _ st1) as [[|] st2]; cbn [fst snd].
  - unfold bind. by destruct (writeFileSync userIdFile _ st2).
  - done.
Qed.


End Bootstrap.



(** * The JSON text of a mapping *)

Module JSONFacts.
Import JSON.

Lemma hex_value_digit (n : N) : n < 16 → hex_value (hex_digit n) = Some n.
Proof.
  intros Hn. unfold hex_digit, hex_value.
  destruct (N.ltb_spec n 10) as [Hlt|Hge].
  - replace ((48 <=? 48 + n) && (48 + n <=? 57)) with true
      by (symmetry; apply andb_true_iff; split; apply N.leb_le; lia).
    f_equal. lia.
  - replace ((48 <=? 87 + n) && (87 + n <=? 57)) with false
      by (symmetry; apply andb_false_iff; right; apply N.leb_gt; lia).
    replace ((97 <=? 87 + n) && (87 + n <=? 102)) with true
      by (symmetry; apply andb_true_iff; split; apply N.leb_le; lia).
    f_equal. lia.
Qed.

Lemma hex4_escape (c : N) :
  c < 65536 →
  hex4 (hex_digit ((c / 4096) mod 16)) (hex_digit ((c / 256) mod 16))
       (hex_digit ((c / 16) mod 16)) (hex_digit (c mod 16)) = Some c.
Proof.
  intros Hc. unfold hex4.
  rewrite !hex_value_digit by (apply N.mod_lt; lia).
  f_equal.
  zify. Z.to_euclidean_division_equations. lia.
Qed.

Lemma parse_chars_literal (c : N) (X : jsstring) :
  32 ≤ c → c ≠ 34 → c ≠ 92 →
  parse_chars (c :: X) = cons_fst c <$> parse_chars X.
Proof.
  intros H32 H34 H92. cbn [parse_chars].
  destruct (N.eqb_spec c 34); [done|].
  destruct (N.eqb_spec c 92); [done|].
  destruct (N.ltb_spec c 32); [lia|done].
Qed.

Lemma parse_chars_escape (c : N) (X : jsstring) :
  c < 65536 →
  parse_chars (UnicodeEscape c ++ X) = cons_fst c <$> parse_chars X.
Proof.
  intros Hc. unfold UnicodeEscape. cbn [app parse_chars].
  change (92 =? 34) with false. change (92 =? 92) with true.
  change (117 =? 117) with true. cbn iota.
  by rewrite hex4_escape.
Qed.

Lemma parse_chars_quote_unit (c : N) (X : jsstring) :
  parse_chars (quote_unit c ++ X) = cons_fst c <$> parse_chars X.
Proof.
  unfold quote_unit.
  destruct (N.eqb_spec c 8) as [->|?]; [done|].
  destruct (N.eqb_spec c 9) as [->|?]; [done|].
  destruct (N.eqb_spec c 10) as [->|?]; [done|].
  destruct (N.eqb_spec c 12) as [->|?]; [done|].
  destruct (N.eqb_spec c 13) as [->|?]; [done|].
  destruct (N.eqb_spec c 34) as [->|?]; [done|].
  destruct (N.eqb_spec c 92) as [->|?]; [done|].
  destruct (N.ltb_spec c 32).
  - apply parse_chars_escape. lia.
  - by apply parse_chars_literal.
Qed.

Lemma high_surrogate_range (c : N) :
  JS.is_high_surrogate c = true → 55296 ≤ c ≤ 56319.
Proof.
  unfold JS.is_high_surrogate.
  intros [?%N.leb_le ?%N.leb_le]%andb_true_iff. lia.
Qed.

Lemma low_surrogate_range (c : N) :
  JS.is_low_surrogate c = true → 56320 ≤ c ≤ 57343.
Proof.
  unfold JS.is_low_surrogate.
  intros [?%N.leb_le ?%N.leb_le]%andb_true_iff. lia.
Qed.

(** Reading back a quoted string gives the string. *)
Lemma parse_chars_quote_units (n : nat) : ∀ (s rest : jsstring),
  (length s ≤ n)%nat →
  parse_chars (quote_units s ++ 34 :: rest) = Some (s, rest).
Proof.
  induction n as [|n IH]; intros s rest Hlen.
  { destruct s; [done|]. cbn in Hlen. lia. }
  destruct s as [|c r]; [done|]. cbn [length] in Hlen.
  cbn [quote_units].
  destruct (JS.is_high_surrogate c) eqn:Hh.
  - apply high_surrogate_range in Hh.
    destruct r as [|d r'].
    + rewrite parse_chars_escape by lia. done.
    + destruct (JS.is_low_surrogate d) eqn:Hl.
      * apply low_surrogate_range in Hl. cbn [app].
        rewrite parse_chars_literal by lia.
        rewrite parse_chars_literal by lia.
        rewrite IH by (cbn [length] in Hlen; lia). done.
      * rewrite <- app_assoc, parse_chars_escape by lia.
        rewrite IH by lia. done.
  - destruct (JS.is_low_surrogate c) eqn:Hl.
    + apply low_surrogate_range in Hl.
      rewrite <- app_assoc, parse_chars_escape by lia.
      rewrite IH by lia. done.
    + rewrite <- app_assoc, parse_chars_quote_unit.
      rewrite IH by lia. done.
Qed.

Lemma parse_chars_quoted (s rest : jsstring) :
  parse_chars (quote_units s ++ 34 :: rest) = Some (s, rest).
Proof. by apply (parse_chars_quote_units (length s)). Qed.

Lemma member_text_app (kv : jsstring * jsstring) (X : jsstring) :
  member_text kv ++ X =
    34 :: quote_units kv.1 ++ 34 :: 58 :: 32 :: 34 :: quote_units kv.2
       ++ 34 :: X.
Proof.
  unfold member_text, QuoteJSONString. cbn [app].
  rewrite <- !app_assoc. cbn [app]. rewrite <- !app_assoc. done.
Qed.

Lemma parse_members_skip (fuel : nat) (s s' : jsstring) :
  skip_ws s = skip_ws s' → parse_members fuel s = parse_members fuel s'.
Proof. intros Heq. destruct fuel; [done|]. cbn [parse_members]. by rewrite Heq. Qed.

(** One member, and what follows it. *)
Lemma parse_members_member (fuel : nat) (kv : jsstring * jsstring)
    (X : jsstring) :
  parse_members (S (S fuel)) (member_text kv ++ X) =
    match skip_ws X with
    | 44 :: r4 =>
        '(ms, r5) ← parse_members (S fuel) r4;
        Some ((kv.1, JStr kv.2) :: ms, r5)
    | 125 :: r4 => Some ([(kv.1, JStr kv.2)], r4)
    | _ => None
    end.
Proof.
  rewrite member_text_app.
  cbn [parse_members skip_ws]. change (is_ws 34) with false. cbn iota.
  rewrite parse_chars_quoted. cbn [mbind option_bind skip_ws].
  change (is_ws 58) with false. cbn iota.
  cbn [parse_value skip_ws]. change (is_ws 32) with true.
  change (is_ws 34) with false. cbn iota.
  change (34 =? 123) with false. change (34 =? 91) with false.
  change (34 =? 34) with true. cbn iota.
  rewrite parse_chars_quoted. cbn [mbind option_bind]. done.
Qed.

Lemma join_members_cons (kv : jsstring * jsstring)
    (r : list (jsstring * jsstring)) (X : jsstring) :
  join_members (kv :: r) ++ X =
    member_text kv ++
      match r with
      | [] => X
      | _ => 44 :: 10 :: 32 :: 32 :: join_members r ++ X
      end.
Proof.
  destruct r as [|kv' r]; [done|].
  cbn [join_members]. rewrite <- !app_assoc. done.
Qed.

Lemma join_members_skip_ws (l : list (jsstring * jsstring)) (X : jsstring) :
  l ≠ [] → ∃ Y, join_members l ++ X = 34 :: Y.
Proof.
  destruct l as [|kv r]; [done|]. intros _.
  rewrite join_members_cons, member_text_app. by eexists.
Qed.

(** The members of a mapping, up to the brace that closes the object. *)
Lemma parse_members_join (l : list (jsstring * jsstring)) :
  ∀ (fuel : nat) (rest : jsstring),
    l ≠ [] → (length l < fuel)%nat →
    parse_members fuel (join_members l ++ 10 :: 125 :: rest)
      = Some (as_members l, rest).
Proof.
  induction l as [|kv r IH]; intros fuel rest Hne Hfuel; [done|].
  destruct fuel as [|[|fuel]]; cbn [length] in Hfuel; [lia..|].
  rewrite join_members_cons, parse_members_member.
  destruct r as [|kv' r']; [done|].
  cbn [skip_ws]. change (is_ws 44) with false. cbn iota.
  rewrite (parse_members_skip _ _
             (join_members (kv' :: r') ++ 10 :: 125 :: rest)).
  - rewrite IH by (done || cbn [length] in *; lia). done.
  - destruct (join_members_skip_ws (kv' :: r') (10 :: 125 :: rest))
      as [Y ->]; done.
Qed.

Lemma length_join_members (l : list (jsstring * jsstring)) :
  (length l ≤ length (join_members l))%nat.
Proof.
  induction l as [|kv r IH]; [done|].
  pose proof (join_members_cons kv r []) as Heq.
  rewrite app_nil_r in Heq. rewrite Heq, member_text_app.
  destruct r as [|kv' r'].
  - cbn [length]. lia.
  - cbn [length]. rewrite !length_app. cbn [length].
    rewrite !length_app. cbn [length]. rewrite app_nil_r.
    cbn [length] in IH. lia.
Qed.

Lemma parse_value_object (fuel : nat) (l : list (jsstring * jsstring))
    (rest : jsstring) :
  l ≠ [] → (length l < fuel)%nat →
  parse_value (S fuel)
      (123 :: 10 :: 32 :: 32 :: join_members l ++ 10 :: 125 :: rest)
    = Some (JObj (as_members l), rest).
Proof.
  intros Hne Hfuel.
  destruct (join_members_skip_ws l (10 :: 125 :: rest)) as [Y HY]; [done|].
  cbn [parse_value skip_ws]. change (is_ws 123) with false. cbn iota.
  change (123 =? 123) with true. cbn iota.
  change (is_ws 10) with true. change (is_ws 32) with true. cbn iota.
  rewrite HY. cbn [skip_ws]. change (is_ws 34) with false. cbn iota.
  rewrite (parse_members_skip _ _ (join_members l ++ 10 :: 125 :: rest)).
  - by rewrite parse_members_join.
  - by rewrite HY.
Qed.

Lemma parse_object_text (l : list (jsstring * jsstring)) :
  l ≠ [] →
  parse ([123; 10; 32; 32] ++ join_members l ++ [10; 125])
    = Some (JObj (as_members l)).
Proof.
  intros Hne. unfold parse.
  remember (length ([123; 10; 32; 32] ++ join_members l ++ [10; 125]))
    as fuel eqn:Hf.
  assert (Hlen : (length l < fuel)%nat).
  { pose proof (length_join_members l). rewrite Hf, !length_app. cbn. lia. }
  clear Hf. cbn [app].
  by rewrite parse_value_object.
Qed.

(** [JSON.parse] reads the text of [JSON.stringify] back. *)
Lemma parse_stringify_members (l : list (jsstring * jsstring)) :
  parse (stringify_members l) = Some (JObj (as_members l)).
Proof.
  destruct l as [|kv r]; [done|].
  by apply (parse_object_text (kv :: r)).
Qed.

Lemma members_mapping_as_members (l : list (jsstring * jsstring)) :
  ∀ acc,
    members_mapping (as_members l) acc
      = Some (foldl (λ a kv, <[kv.1 := kv.2]> a) acc l).
Proof.
  induction l as [|[k v] r IH]; intros acc; [done|].
  cbn [as_members map members_mapping fst snd foldl]. apply IH.
Qed.

Lemma foldl_insert_list_to_map (l : list (jsstring * jsstring)) :
  foldl (λ a kv, <[kv.1 := kv.2]> a) (∅ : gmap jsstring jsstring) l
    = list_to_map (reverse l).
Proof.
  induction l as [|x l IH] using rev_ind; [done|].
  rewrite foldl_snoc, reverse_snoc, IH. by destruct x.
Qed.

(** The object that the text of a mapping denotes is the mapping. *)
Lemma as_mapping_stringify (m : gmap jsstring jsstring) :
  parse (stringify m) ≫= as_mapping = Some m.
Proof.
  unfold stringify. rewrite parse_stringify_members.
  cbn [mbind option_bind as_mapping].
  rewrite members_mapping_as_members, foldl_insert_list_to_map.
  f_equal. rewrite <- (list_to_map_to_list m) at 2.
  apply list_to_map_proper.
  - rewrite fmap_reverse, reverse_Permutation. apply NoDup_fst_map_to_list.
  - apply reverse_Permutation.
Qed.

(** *** The text is well formed, so that UTF-8 keeps it *)

Lemma toWellFormed_plain (c : N) (r : jsstring) :
  JS.is_high_surrogate c = false → JS.is_low_surrogate c = false →
  JS.toWellFormed (c :: r) = c :: JS.toWellFormed r.
Proof. intros Hh Hl. cbn [JS.toWellFormed]. by rewrite Hh, Hl. Qed.

Lemma toWellFormed_app_n (n : nat) : ∀ (a b : jsstring),
  (length a ≤ n)%nat →
  JS.toWellFormed a = a →
  JS.toWellFormed (a ++ b) = a ++ JS.toWellFormed b.
Proof.
  induction n as [|n IH]; intros a b Hlen Ha.
  { destruct a; [done|]. cbn in Hlen. lia. }
  destruct a as [|c r]; [done|]. cbn [length] in Hlen.
  cbn [JS.toWellFormed app] in *.
  destruct (JS.is_high_surrogate c) eqn:Hh.
  - destruct r as [|d r'].
    + injection Ha as <-. done.
    + cbn [app]. destruct (JS.is_low_surrogate d) eqn:Hl.
      * injection Ha as Ha. rewrite IH; [done| |done].
        cbn [length] in Hlen. lia.
      * injection Ha as <- _. done.
  - destruct (JS.is_low_surrogate c) eqn:Hl.
    + injection Ha as <- _. done.
    + injection Ha as Ha. rewrite IH; [done|lia|done].
Qed.

Lemma well_formed_app (a b : jsstring) :
  JS.toWellFormed a = a → JS.toWellFormed b = b →
  JS.toWellFormed (a ++ b) = a ++ b.
Proof.
  intros Ha Hb. rewrite (toWellFormed_app_n (length a)) by done.
  by rewrite Hb.
Qed.

Lemma well_formed_ascii (l : jsstring) :
  Forall (λ c, c < 128) l → JS.toWellFormed l = l.
Proof.
  induction 1 as [|c r Hc _ IH]; [done|].
  rewrite toWellFormed_plain, IH; [done|..].
  - unfold JS.is_high_surrogate.
    destruct (N.leb_spec 55296 c); [lia|done].
  - unfold JS.is_low_surrogate.
    destruct (N.leb_spec 56320 c); [lia|done].
Qed.

Lemma hex_digit_ascii (n : N) : n < 16 → hex_digit n < 128.
Proof. intros Hn. unfold hex_digit. destruct (n <? 10); lia. Qed.

Lemma well_formed_escape (c : N) : JS.toWellFormed (UnicodeEscape c) = UnicodeEscape c.
Proof.
  apply well_formed_ascii. unfold UnicodeEscape.
  repeat constructor; try (apply hex_digit_ascii, N.mod_lt); lia.
Qed.

Lemma well_formed_quote_unit (c : N) :
  JS.is_high_surrogate c = false → JS.is_low_surrogate c = false →
  JS.toWellFormed (quote_unit c) = quote_unit c.
Proof.
  intros Hh Hl. unfold quote_unit.
  repeat (match goal with
          | |- context [if ?b then _ else _] => destruct b; [done|]
          end).
  destruct (c <? 32); [apply well_formed_escape|].
  by rewrite toWellFormed_plain.
Qed.

Lemma well_formed_quote_units (n : nat) : ∀ (s : jsstring),
  (length s ≤ n)%nat → JS.toWellFormed (quote_units s) = quote_units s.
Proof.
  induction n as [|n IH]; intros s Hlen.
  { destruct s; [done|]. cbn in Hlen. lia. }
  destruct s as [|c r]; [done|]. cbn [length] in Hlen.
  cbn [quote_units].
  destruct (JS.is_high_surrogate c) eqn:Hh.
  - destruct r as [|d r']; [apply well_formed_escape|].
    destruct (JS.is_low_surrogate d) eqn:Hl.
    + cbn [JS.toWellFormed]. rewrite Hh, Hl, IH; [done|].
      cbn [length] in Hlen. lia.
    + apply well_formed_app; [apply well_formed_escape|apply IH; lia].
  - destruct (JS.is_low_surrogate c) eqn:Hl.
    + apply well_formed_app; [apply well_formed_escape|apply IH; lia].
    + apply well_formed_app; [by apply well_formed_quote_unit|apply IH; lia].
Qed.

Lemma well_formed_quoted (s : jsstring) :
  JS.toWellFormed (QuoteJSONString s) = QuoteJSONString s.
Proof.
  unfold QuoteJSONString.
  apply (well_formed_app [34]); [done|].
  apply well_formed_app; [|done].
  by apply (well_formed_quote_units (length s)).
Qed.

Lemma well_formed_member (kv : jsstring * jsstring) :
  JS.toWellFormed (member_text kv) = member_text kv.
Proof.
  unfold member_text.
  repeat apply well_formed_app; try apply well_formed_quoted; done.
Qed.

Lemma well_formed_join (l : list (jsstring * jsstring)) :
  JS.toWellFormed (join_members l) = join_members l.
Proof.
  induction l as [|kv r IH]; [done|].
  destruct r as [|kv' r']; [apply well_formed_member|].
  change (join_members (kv :: kv' :: r'))
    with (member_text kv ++ [44; 10; 32; 32] ++ join_members (kv' :: r')).
  apply well_formed_app; [apply well_formed_member|].
  by apply well_formed_app.
Qed.

(** The text of a mapping has no lone surrogate. *)
Lemma well_formed_stringify (m : gmap jsstring jsstring) :
  JS.toWellFormed (stringify m) = stringify m.
Proof.
  unfold stringify, stringify_members.
  destruct (map_to_list m) as [|kv r]; [done|].
  apply well_formed_app; [done|].
  apply well_formed_app; [apply well_formed_join|done].
Qed.

End JSONFacts.

(** * The cache files *)

Section Cache.
Context `{Platform}.

Lemma read_json_insert (d : gmap jsstring File) path content :
  read_json (<[path := FileText content]> d) path = JSON.parse content.
Proof. unfold read_json. by rewrite lookup_insert_eq. Qed.

Lemma read_json_insert_ne (d : gmap jsstring File) path path' f :
  path ≠ path' → read_json (<[path := f]> d) path' = read_json d path'.
Proof. intros Hne. unfold read_json. by rewrite lookup_insert_ne. Qed.

Lemma read_json_Some (d : gmap jsstring File) path v :
  read_json d path = Some v → is_Some (d !! path).
Proof. unfold read_json. destruct (d !! path); [by eexists|done]. Qed.

Lemma load_cache_lastSeen (d : gmap jsstring File) v :
  read_json d lastSeenFile = Some v → (load_cache d).1 = v.
Proof.
  intros Hr. unfold load_cache.
  destruct (read_json_Some _ _ _ Hr) as [f ->]. rewrite Hr.
  destruct (d !! userIdFile); [destruct (read_json d userIdFile)|]; done.
Qed.

Lemma load_cache_userIds (d : gmap jsstring File) v v' :
  read_json d lastSeenFile = Some v → read_json d userIdFile = Some v' →
  (load_cache d).2 = v'.
Proof.
  intros Hr Hr'. unfold load_cache.
  destruct (read_json_Some _ _ _ Hr) as [f ->]. rewrite Hr.
  destruct (read_json_Some _ _ _ Hr') as [f' ->]. by rewrite Hr'.
Qed.

Lemma parse_saved (m : gmap jsstring jsstring) :
  JSON.parse (JS.toWellFormed (JSON.stringify m))
    = Some (JSON.JObj (as_members (map_to_list m))).
Proof.
  rewrite JSONFacts.well_formed_stringify.
  apply JSONFacts.parse_stringify_members.
Qed.

Lemma as_mapping_saved (m : gmap jsstring jsstring) :
  JSON.as_mapping (JSON.JObj (as_members (map_to_list m))) = Some m.
Proof.
  pose proof (JSONFacts.as_mapping_stringify m) as Hm.
  unfold JSON.stringify in Hm.
  by rewrite JSONFacts.parse_stringify_members in Hm.
Qed.

Lemma cache_files_differ : lastSeenFile ≠ userIdFile.
Proof. vm_compute. done. Qed.

(** C7: when [lastSeen.json] and [userIds.json] have been written with the
    JSON texts of two mappings, as [initializeLastSeen] does, loading the
    cache gives objects that hold these mappings; and when [lastSeen.json]
    alone has been written, as [poll] does, the watermarks that are loaded
    are those that were written. *)
Theorem persisted_mappings_reload
    (newLastSeen newUserIds : gmap jsstring jsstring) (st : State) :
  writes_succeed →
  let st1 := (writeFileSync lastSeenFile (JSON.stringify newLastSeen) st).2 in
  let st2 := (writeFileSync userIdFile (JSON.stringify newUserIds) st1).2 in
  JSON.as_mapping (load_cache (disk st2)).1 = Some newLastSeen ∧
  JSON.as_mapping (load_cache (disk st2)).2 = Some newUserIds ∧
  JSON.as_mapping (load_cache (disk st1)).1 = Some newLastSeen.
Proof.
  intros Hfs. cbn zeta. rewrite !writeFileSync_spec. cbn zeta.
  cbn [snd world disk]. rewrite !Hfs.
  pose proof cache_files_differ as Hne.
  split; [|split].
  - erewrite load_cache_lastSeen; [apply as_mapping_saved|].
    rewrite read_json_insert_ne by done.
    rewrite read_json_insert. apply parse_saved.
  - erewrite load_cache_userIds; [apply as_mapping_saved| |].
    + rewrite read_json_insert_ne by done.
      rewrite read_json_insert. apply parse_saved.
    + rewrite read_json_insert. apply parse_saved.
  - erewrite load_cache_lastSeen; [apply as_mapping_saved|].
    rewrite read_json_insert. apply parse_saved.
Qed.

(** C8: when the file of a cache is missing, cannot be read or does not
    hold JSON, the statements that load the caches end all the same, and
    the cache is the empty object. *)
Theorem unreadable_cache_is_empty (d : gmap jsstring File) (c : Cache) :
  d !! cache_file c = None
  ∨ d !! cache_file c = Some FileUnreadable
  ∨ (∃ content, d !! cache_file c = Some (FileText content)
                ∧ JSON.parse content = None) →
  loaded c d = JSON.JObj [] ∧ JSON.as_mapping (loaded c d) = Some ∅.
Proof.
  intros Hfail.
  assert (Hr : read_json d (cache_file c) = None).
  { unfold read_json.
    destruct Hfail as [->|[->|(content & -> & Hp)]]; done. }
  assert (Hl : loaded c d = JSON.JObj []).
  { destruct c; cbn [cache_file loaded] in *; unfold load_cache.
    - rewrite Hr. destruct (d !! lastSeenFile); [done|].
      destruct (d !! userIdFile); [destruct (read_json d userIdFile)|];
        done.
    - rewrite Hr.
      destruct (d !! lastSeenFile);
        [destruct (read_json d lastSeenFile)|];
        destruct (d !! userIdFile); done. }
  by rewrite Hl.
Qed.

End Cache.

Lemma persisted_mappings_witness :
  JSON.as_mapping
    (load_cache
       (disk (@writeFileSync demo userIdFile
                (JSON.stringify {[js "AzoniNFT" := js "42"]})
                (@writeFileSync demo lastSeenFile
                   (JSON.stringify {[js "AzoniNFT" := js "103"]})
                   demo_start).2).2)).1
    = Some {[js "AzoniNFT" := js "103"]}.
Proof.
  destruct (@persisted_mappings_reload demo
              {[js "AzoniNFT" := js "103"]} {[js "AzoniNFT" := js "42"]}
              demo_start) as [Hw _].
  - intros ? []. reflexivity.
  - exact Hw.
Defined.

Lemma unreadable_cache_witness :
  loaded LastSeenCache corrupt_disk = JSON.JObj [] ∧
  JSON.as_mapping (loaded LastSeenCache corrupt_disk) = Some ∅.
Proof.
  apply (unreadable_cache_is_empty corrupt_disk LastSeenCache).
  right. right. exists (js "{oops"). split; reflexivity.
Defined.

(** * Further properties of the poll cycle *)

Section PollMore.
Context `{Platform}.

Lemma total_sleep_app a b : total_sleep (a ++ b) = total_sleep a + total_sleep b.
Proof.
  induction a as [|e a IH]; [done|].
  destruct e; cbn; rewrite ?IH; lia.
Qed.

(** A property of event lists that holds of the empty list, of the events
    of the turn of any handle, and of the concatenation of two lists it
    holds of, holds of the events of the loop of [poll]. *)
Lemma poll_loop_events (P : list Event → Prop) :
  P [] →
  (∀ a b, P a → P b → P (a ++ b)) →
  (∀ h st, JS.truthy (JS.get (userIds st) h) = true →
           P (since st (poll_handle h st).2)) →
  ∀ handles st,
    ∃ evs, trace (for_each handles poll_handle st).2 = trace st ++ evs
           ∧ P evs.
Proof.
  intros Hnil Happ Hturn handles.
  induction handles as [|h hs IH]; intros st.
  - exists []. by rewrite app_nil_r.
  - cbn [for_each]. unfold bind.
    destruct (JS.truthy (JS.get (userIds st) h)) eqn:Hu.
    + pose proof (Hturn h st Hu) as HP.
      destruct (poll_handle_spec h st Hu) as (os & w1 & _ & Heq).
      rewrite Heq in HP |- *. cbn [snd] in HP.
      erewrite since_app in HP by reflexivity.
      match goal with |- context [for_each hs _ ?s] =>
        destruct (IH s) as (evs & -> & HP') end.
      cbn [trace]. eexists. rewrite <- app_assoc. split; [reflexivity|].
      by apply Happ.
    + rewrite (poll_handle_skip h st Hu). apply IH.
Qed.

Lemma batch_events_completion h tweets : ∀ outcomes p,
  p ∈ completion_prompts (batch_events h tweets outcomes) →
  ∃ t, t ∈ tweets ∧ p = prompt (text t).
Proof.
  induction tweets as [|t ts IH]; intros [|o os] p Hin;
    try by apply elem_of_nil in Hin.
  cbn [batch_events] in Hin.
  rewrite completion_prompts_app, tweet_events_prompts in Hin.
  apply elem_of_cons in Hin as [->|Hin].
  - exists t. split; [left|done].
  - destruct (IH _ _ Hin) as (t' & ? & ->). exists t'. split; [by right|done].
Qed.

(** What is sent to the language model in a poll cycle is the text of a
    tweet of a timeline response of the cycle whose [in_reply_to_user_id]
    is [null]: the text of a reply is never sent. *)
Theorem only_tweets_with_null_reply_field_are_forwarded
    (handles : list jsstring) (st : State) (p : jsstring) :
  p ∈ completion_prompts (since st (poll_for handles st).2) →
  ∃ url data t,
    EvGetTweets url (Some data) ∈ since st (poll_for handles st).2 ∧
    t ∈ default [] data ∧
    in_reply_to_user_id t = JS.Null ∧ has_reply_target t = false ∧
    p = prompt (text t).
Proof.
  set (P := λ evs : list Event,
    ∀ p, p ∈ completion_prompts evs →
         ∃ url data t,
           EvGetTweets url (Some data) ∈ evs ∧ t ∈ default [] data ∧
           in_reply_to_user_id t = JS.Null ∧ has_reply_target t = false ∧
           p = prompt (text t)).
  assert (Hloop : ∀ st, ∃ evs,
    trace (for_each handles poll_handle st).2 = trace st ++ evs ∧ P evs).
  { apply poll_loop_events.
    - intros q Hq. by apply elem_of_nil in Hq.
    - intros a b Ha Hb q Hq. rewrite completion_prompts_app in Hq.
      apply elem_of_app in Hq as [Hq|Hq].
      + destruct (Ha q Hq) as (url & data & t & ? & ? & ? & ? & ?).
        exists url, data, t. split; [apply elem_of_app; by left|done].
      + destruct (Hb q Hq) as (url & data & t & ? & ? & ? & ? & ?).
        exists url, data, t. split; [apply elem_of_app; by right|done].
    - intros h st0 Hu q Hq.
      destruct (poll_handle_spec h st0 Hu) as (os & w1 & _ & Heq).
      rewrite Heq in Hq |- *. cbn [snd] in *.
      erewrite since_app in Hq |- * by reflexivity.
      cbn [app completion_prompts] in Hq.
      rewrite completion_prompts_app in Hq. cbn in Hq.
      rewrite app_nil_r in Hq.
      destruct (batch_events_completion _ _ _ _ Hq) as (t & Ht & ->).
      rewrite elem_of_rev in Ht.
      destruct (kept_elem _ _ Ht) as (data & Hres & Hd & Ho).
      exists (tweets_url (default [] (JS.get (userIds st0) h))
                (JS.get (lastSeen st0) h)),
        data, t.
      split; [rewrite Hres; left|]. split; [done|].
      unfold is_original, has_reply_target in *.
      destruct (in_reply_to_user_id t); done. }
  rewrite poll_for_spec. cbn zeta. cbn [snd].
  rewrite writeFileSync_spec. cbn zeta. cbn [snd].
  destruct (Hloop st) as (evs & Htr & HP).
  erewrite since_app; [|cbn [trace]; rewrite Htr, <- app_assoc; reflexivity].
  rewrite completion_prompts_app. cbn. rewrite app_nil_r.
  intros Hin. destruct (HP p Hin) as (url & data & t & ? & ? & ? & ? & ?).
  exists url, data, t. split; [apply elem_of_app; by left|done].
Qed.

End PollMore.

Section PollEdges.
Context `{Platform}.

(** A turn whose request gives no tweet that is kept, and a turn that is
    skipped. *)
Lemma poll_handle_quiet h st :
  (∀ url res, EvGetTweets url res ∈ since st (poll_handle h st).2 →
              kept res = []) →
  lastSeen (poll_handle h st).2 = lastSeen st ∧
  completion_prompts (since st (poll_handle h st).2) = [] ∧
  published_texts (since st (poll_handle h st).2) = [].
Proof.
  destruct (JS.truthy (JS.get (userIds st) h)) eqn:Hu.
  - rewrite (poll_handle_run h st Hu). cbn zeta. cbn [snd lastSeen].
    erewrite since_app by reflexivity. intros Hq.
    rewrite (Hq _ _ (list_elem_of_here _ _)). done.
  - rewrite (poll_handle_skip h st Hu). cbn [snd]. unfold since.
    by rewrite drop_all.
Qed.

Lemma poll_loop_quiet handles : ∀ st,
  (∀ url res,
     EvGetTweets url res ∈ since st (for_each handles poll_handle st).2 →
     kept res = []) →
  lastSeen (for_each handles poll_handle st).2 = lastSeen st ∧
  completion_prompts (since st (for_each handles poll_handle st).2) = [] ∧
  published_texts (since st (for_each handles poll_handle st).2) = [].
Proof.
  induction handles as [|h hs IH]; intros st Hq.
  - cbn. unfold since. by rewrite drop_all.
  - destruct (poll_loop_since h hs st) as [Hs Heq]. cbn zeta in Hs.
    rewrite Hs in Hq |- *. rewrite Heq.
    destruct (poll_handle_quiet h st) as (Hl1 & Hc1 & Hp1).
    { intros url res Hin. apply (Hq url). apply elem_of_app. by left. }
    destruct (IH (poll_handle h st).2) as (Hl2 & Hc2 & Hp2).
    { intros url res Hin. apply (Hq url). apply elem_of_app. by right. }
    by rewrite completion_prompts_app, published_texts_app,
         Hc1, Hc2, Hp1, Hp2, Hl2, Hl1.
Qed.

(** When no timeline request of a cycle gives a tweet that is kept (the
    request throws, the timeline has nothing new, or all the new tweets
    are dropped by the filter), the cycle changes no watermark, sends
    nothing to the language model and publishes nothing. *)
Theorem quiet_cycle_changes_nothing (handles : list jsstring) (st : State) :
  (∀ url res, EvGetTweets url res ∈ since st (poll_for handles st).2 →
              kept res = []) →
  lastSeen (poll_for handles st).2 = lastSeen st ∧
  completion_prompts (since st (poll_for handles st).2) = [] ∧
  published_texts (since st (poll_for handles st).2) = [].
Proof.
  rewrite poll_for_lastSeen, poll_for_spec. cbn zeta. cbn [snd].
  rewrite writeFileSync_spec. cbn zeta. cbn [snd].
  destruct (poll_loop_spec handles st)
    as (st1 & evs & Heq & _ & _ & Htr & _).
  pose proof (poll_loop_quiet handles st) as Hloop.
  rewrite Heq in Hloop |- *. cbn [snd] in Hloop |- *.
  rewrite (since_app st st1 evs Htr) in Hloop.
  erewrite since_app;
    [|cbn [trace]; rewrite Htr, <- app_assoc; reflexivity].
  intros Hq. destruct Hloop as (Hl & Hc & Hp).
  { intros url res Hin. apply (Hq url). apply elem_of_app. by left. }
  by rewrite completion_prompts_app, published_texts_app, Hc, Hp.
Qed.

Lemma poll_loop_skip handles : ∀ st,
  (∀ h, h ∈ handles → JS.truthy (JS.get (userIds st) h) = false) →
  for_each handles poll_handle st = (tt, st).
Proof.
  induction handles as [|h hs IH]; intros st Hall; [done|].
  cbn [for_each]. unfold bind.
  rewrite poll_handle_skip by (apply Hall; left).
  apply IH. intros h' Hin. apply Hall. by right.
Qed.

Lemma poll_for_skip handles st :
  (∀ h, h ∈ handles → JS.truthy (JS.get (userIds st) h) = false) →
  poll_for handles st =
    (tt, {| world := (fs_write lastSeenFile (world st)).2;
            lastSeen := lastSeen st; userIds := userIds st;
            disk := if (fs_write lastSeenFile (world st)).1
                    then <[lastSeenFile :=
                             FileText (JS.toWellFormed
                                         (JSON.stringify (lastSeen st)))]>
                           (disk st)
                    else disk st;
            trace := trace st ++
              [EvWrite lastSeenFile (JSON.stringify (lastSeen st))
                 (fs_write lastSeenFile (world st)).1] |}).
Proof.
  intros Hall. rewrite poll_for_spec. cbn zeta.
  rewrite poll_loop_skip by done. cbn [snd].
  by rewrite writeFileSync_spec.
Qed.

(** A poll cycle over handles for each of which [userIds[handle]] is falsy
    (the object has no property of this name, of its own or inherited, or
    an empty one) sends no request: all it does is write the watermarks it
    has to [lastSeen.json]. *)
Theorem poll_without_user_ids_only_writes
    (handles : list jsstring) (st : State) :
  (∀ h, h ∈ handles → JS.truthy (JS.get (userIds st) h) = false) →
  since st (poll_for handles st).2
    = [EvWrite lastSeenFile (JSON.stringify (lastSeen st))
         (fs_write lastSeenFile (world st)).1] ∧
  lastSeen (poll_for handles st).2 = lastSeen st.
Proof.
  intros Hall. rewrite poll_for_skip by done. cbn [snd lastSeen].
  split; [|done]. by erewrite since_app by reflexivity.
Qed.

(** A poll cycle changes the watermark of no handle outside its list. *)
Theorem poll_leaves_other_watermarks
    (handles : list jsstring) (other : jsstring) (st : State) :
  other ∉ handles →
  lastSeen (poll_for handles st).2 !! other = lastSeen st !! other.
Proof.
  rewrite poll_for_lastSeen. revert st.
  induction handles as [|h hs IH]; intros st Hnot; [done|].
  cbn [for_each]. unfold bind.
  assert (Hh : lastSeen (poll_handle h st).2 !! other = lastSeen st !! other).
  { rewrite poll_handle_lastSeen. destruct (JS.truthy _); [|done].
    apply advance_other. intros ->. apply Hnot. left. }
  destruct (poll_handle h st) as [[] st1]. cbn [snd] in Hh.
  rewrite IH, Hh; [done|]. intros Hin. apply Hnot. by right.
Qed.

Lemma trimStart_white (s : jsstring) :
  forallb JS.is_white_space s = true → JS.trimStart s = [].
Proof.
  induction s as [|c r IH]; [done|]. cbn.
  intros [Hc Hr]%andb_true_iff. rewrite Hc. by apply IH.
Qed.

(** A commentary made of white space only is trimmed to the empty string,
    and nothing is published for the tweet. *)
Theorem blank_commentary_is_not_published
    (handle : jsstring) (tweet : Tweet) (content : jsstring) (st : State) :
  (openai_create (prompt (text tweet)) (world st)).1 = Some content →
  forallb JS.is_white_space content = true →
  (generateQuote (text tweet) st).1 = Some [] ∧
  since st (process_tweet handle tweet st).2
    = [EvCompletion (prompt (text tweet)) (Some content)].
Proof.
  intros Hres Hblank.
  assert (Ht : JS.trim content = []).
  { unfold JS.trim, JS.trimEnd. rewrite (trimStart_white content Hblank).
    reflexivity. }
  rewrite generateQuote_spec. cbn zeta. rewrite Hres. cbn [fst fmap option_fmap option_map].
  rewrite Ht. split; [done|].
  destruct (process_tweet_spec handle tweet st) as (posted & w' & ->).
  cbn [snd]. erewrite since_app by reflexivity.
  unfold tweet_events. rewrite Hres. cbn. by rewrite Ht.
Qed.

Lemma tweet_events_pause h t answer posted :
  total_sleep (tweet_events h t answer posted)
    = 2000 * N.of_nat (length (published_texts (tweet_events h t answer posted))).
Proof.
  unfold tweet_events. destruct (JS.trim <$> answer) as [[|c q]|]; done.
Qed.

Lemma tweet_events_published h t answer posted :
  (length (published_texts (tweet_events h t answer posted)) ≤ 1)%nat.
Proof.
  unfold tweet_events. destruct (JS.trim <$> answer) as [[|c q]|]; cbn; lia.
Qed.

Lemma batch_events_pause h tweets : ∀ outcomes,
  total_sleep (batch_events h tweets outcomes)
    = 2000 * N.of_nat (length (published_texts (batch_events h tweets outcomes)))
  ∧ (length (published_texts (batch_events h tweets outcomes))
     ≤ length (completion_prompts (batch_events h tweets outcomes)))%nat.
Proof.
  induction tweets as [|t ts IH]; intros [|o os]; try done.
  cbn [batch_events]. destruct (IH os) as [IH1 IH2].
  rewrite total_sleep_app, published_texts_app, completion_prompts_app,
    !length_app, tweet_events_pause, IH1, tweet_events_prompts.
  pose proof (tweet_events_published h t o.1 o.2). cbn [length]. split; lia.
Qed.

Lemma paced_app_n (n : nat) : ∀ a b,
  (length a ≤ n)%nat → paced a = true → paced b = true →
  paced (a ++ b) = true.
Proof.
  induction n as [|n IH]; intros a b Hlen Ha Hb.
  { destruct a; [done|]. cbn in Hlen. lia. }
  destruct a as [|e a]; [done|]. cbn [length] in Hlen.
  destruct e; try (cbn in Ha |- *; apply IH; [lia|done..]).
  - destruct a as [|e' a']; [done|].
    destruct e'; try done. cbn in Ha |- *.
    apply andb_true_iff in Ha as [-> Ha]. cbn [andb].
    apply IH; [cbn in Hlen; lia|done..].
  - done.
Qed.

Lemma paced_app a b :
  paced a = true → paced b = true → paced (a ++ b) = true.
Proof. by apply (paced_app_n (length a)). Qed.

Lemma tweet_run_paced h t w : paced (tweet_run h t w).1 = true.
Proof.
  unfold tweet_run.
  by destruct (JS.trim <$> (openai_create (prompt (text t)) w).1)
    as [[|c q]|].
Qed.

Lemma batch_run_paced h tweets : ∀ w, paced (batch_run h tweets w).1 = true.
Proof.
  induction tweets as [|t ts IH]; intros w; [done|].
  cbn [batch_run fst]. apply paced_app; [apply tweet_run_paced|apply IH].
Qed.

(** In a poll cycle every call of [twitterClient.v2.tweet], whether it
    returns or throws, is followed at once by a pause of 2000 ms, and
    there is no other pause; so the cycle pauses for 2000 ms times the
    number of these calls, and there are no more of them than requests to
    the language model. *)
Theorem poll_pauses_after_every_publish (handles : list jsstring) (st : State) :
  let evs := since st (poll_for handles st).2 in
  paced evs = true ∧
  total_sleep evs = 2000 * N.of_nat (length (published_texts evs)) ∧
  (length (published_texts evs) ≤ length (completion_prompts evs))%nat.
Proof.
  cbn zeta.
  destruct (poll_loop_events
    (λ evs, paced evs = true ∧
            total_sleep evs = 2000 * N.of_nat (length (published_texts evs))
            ∧ (length (published_texts evs)
               ≤ length (completion_prompts evs))%nat)) with
    (handles := handles) (st := st) as (evs & Htr & Hp & Hs & Hl).
  - done.
  - intros a b (Ha0 & Ha1 & Ha2) (Hb0 & Hb1 & Hb2).
    split; [by apply paced_app|].
    rewrite total_sleep_app, published_texts_app, completion_prompts_app,
      !length_app. split; lia.
  - intros h st0 Hu. split.
    { rewrite (poll_handle_run h st0 Hu). cbn zeta. cbn [snd].
      erewrite since_app by reflexivity.
      apply (paced_app [_]); [done|].
      apply paced_app; [apply batch_run_paced|done]. }
    destruct (poll_handle_spec h st0 Hu) as (os & w1 & _ & ->).
    cbn [snd]. erewrite since_app by reflexivity.
    cbn [app total_sleep published_texts completion_prompts].
    rewrite total_sleep_app, published_texts_app, completion_prompts_app,
      !length_app.
    destruct (batch_events_pause h
                (rev (kept (axios_get_tweets
                   (tweets_url (default [] (JS.get (userIds st0) h))
                      (JS.get (lastSeen st0) h)) (world st0)).1)) os) as [-> ?].
    cbn. split; lia.
  - rewrite poll_for_spec. cbn zeta. cbn [snd].
    rewrite writeFileSync_spec. cbn zeta. cbn [snd].
    erewrite since_app;
      [|cbn [trace]; rewrite Htr, <- app_assoc; reflexivity].
    split; [by apply paced_app|].
    rewrite total_sleep_app, published_texts_app, completion_prompts_app,
      !length_app. cbn. split; lia.
Qed.

End PollEdges.

(** * Further properties of the bootstrap *)

Section BootstrapMore.
Context `{Platform}.

(** The events of one turn of the bootstrap loop. *)
Lemma initialize_handle_trace h acc st :
  trace (initialize_handle h acc st).2 =
    trace st ++
    match (axios_get_user (user_url h) (world st)).1 with
    | Some userId =>
        [EvGetUser (user_url h) (Some userId); EvSleep 300000;
         EvGetTweets (latest_url userId)
           (axios_get_tweets (latest_url userId)
              (axios_get_user (user_url h) (world st)).2).1]
    | None => [EvGetUser (user_url h) None]
    end.
Proof.
  destruct acc as [nls nui]. unfold initialize_handle, bind.
  rewrite getUserId_spec. cbn zeta.
  destruct (axios_get_user (user_url h) (world st)) as [[uid|] w1];
    cbn [fst snd]; [|done].
  unfold sleep, emit at 1. cbn beta iota.
  rewrite getLatestTweet_spec. cbn zeta. cbn [world trace].
  destruct (axios_get_tweets (latest_url uid) w1) as [r w2]. cbn [fst snd].
  destruct r as [[[|t ts]|]|]; try destruct (JS.truthy (Some (id t)));
    cbn [ret snd trace]; rewrite <- !app_assoc; reflexivity.
Qed.

Lemma initialize_handle_events h acc st :
  since st (initialize_handle h acc st).2 =
    match (axios_get_user (user_url h) (world st)).1 with
    | Some userId =>
        [EvGetUser (user_url h) (Some userId); EvSleep 300000;
         EvGetTweets (latest_url userId)
           (axios_get_tweets (latest_url userId)
              (axios_get_user (user_url h) (world st)).2).1]
    | None => [EvGetUser (user_url h) None]
    end
  ∧ ∃ evs, trace (initialize_handle h acc st).2 = trace st ++ evs.
Proof.
  pose proof (initialize_handle_trace h acc st) as Htr.
  split; [by apply since_app|by eexists].
Qed.

Lemma initialize_handles_events (P : list Event → Prop) :
  P [] →
  (∀ a b, P a → P b → P (a ++ b)) →
  (∀ h acc st, P (since st (initialize_handle h acc st).2)) →
  ∀ handles acc st,
    ∃ evs, trace (initialize_handles handles acc st).2 = trace st ++ evs
           ∧ P evs.
Proof.
  intros Hnil Happ Hturn handles.
  induction handles as [|h hs IH]; intros acc st.
  - exists []. by rewrite app_nil_r.
  - cbn [initialize_handles]. unfold bind.
    pose proof (Hturn h acc st) as HP.
    destruct (initialize_handle_events h acc st) as [_ [evs1 Htr1]].
    destruct (initialize_handle h acc st) as [acc1 st1]. cbn [snd] in *.
    rewrite (since_app _ _ _ Htr1) in HP.
    destruct (IH acc1 st1) as (evs2 & -> & HP2).
    exists (evs1 ++ evs2). rewrite Htr1, <- app_assoc. split; [done|].
    by apply Happ.
Qed.

Lemma resolved_lookups_app a b :
  resolved_lookups (a ++ b) = (resolved_lookups a + resolved_lookups b)%nat.
Proof.
  induction a as [|e a IH]; [done|].
  destruct e as [? [?|]| | | | | |]; cbn; rewrite ?IH; done.
Qed.

(** The end of the bootstrap, as events after those of the loop. *)
Lemma initializeLastSeen_for_trace handles st :
  ∃ evs w1 ok1 ok2,
    let res := initializeLastSeen_for handles st in
    trace (initialize_handles handles (∅, ∅) st).2 = trace st ++ evs ∧
    trace res.2 =
      trace st ++ evs
      ++ EvWrite lastSeenFile (JSON.stringify res.1.1) ok1
         :: (if ok1 then [EvWrite userIdFile (JSON.stringify res.1.2) ok2]
             else []) ∧
    ok1 = (fs_write lastSeenFile w1).1 ∧
    lastSeen res.2 = lastSeen st ∧ userIds res.2 = userIds st ∧
    disk res.2 =
      if ok1
      then if ok2
           then <[userIdFile :=
                    FileText (JS.toWellFormed (JSON.stringify res.1.2))]>
                  (<[lastSeenFile :=
                       FileText (JS.toWellFormed (JSON.stringify res.1.1))]>
                     (disk st))
           else <[lastSeenFile :=
                    FileText (JS.toWellFormed (JSON.stringify res.1.1))]>
                  (disk st)
      else disk st.
Proof.
  cbn zeta. rewrite initializeLastSeen_for_spec. cbn zeta. cbn [fst snd].
  destruct (initialize_handles_frame handles (∅, ∅) st)
    as (evs & w1 & Hst & _).
  destruct (initialize_handles handles (∅, ∅) st) as [[nls nui] st1].
  cbn [fst snd] in *. subst st1.
  rewrite !writeFileSync_spec. cbn zeta.
  cbn [fst snd world lastSeen userIds disk trace].
  exists evs, w1, (fs_write lastSeenFile w1).1,
    (fs_write userIdFile (fs_write lastSeenFile w1).2).1.
  split; [done|].
  destruct (fs_write lastSeenFile w1).1;
    cbn [fst snd world lastSeen userIds disk trace].
  - rewrite <- !app_assoc. repeat split; try done;
      by destruct (fs_write userIdFile _).1.
  - rewrite <- !app_assoc. done.
Qed.

(** The bootstrap waits 300000 ms, five minutes, after every user lookup
    that has returned, and at no other time. *)
Theorem bootstrap_waits_after_every_lookup
    (handles : list jsstring) (st : State) :
  let evs := since st (initializeLastSeen_for handles st).2 in
  total_sleep evs = 300000 * N.of_nat (resolved_lookups evs).
Proof.
  cbn zeta.
  destruct (initialize_handles_events
    (λ evs, total_sleep evs = 300000 * N.of_nat (resolved_lookups evs)))
    with (handles := handles) (acc := (∅ : gmap jsstring jsstring,
                                       ∅ : gmap jsstring jsstring))
         (st := st) as (evs & Htr & HP).
  - done.
  - intros a b Ha Hb. rewrite total_sleep_app, resolved_lookups_app. lia.
  - intros h acc st0.
    destruct (initialize_handle_events h acc st0) as [-> _].
    by destruct (axios_get_user _ _).1.
  - destruct (initializeLastSeen_for_trace handles st)
      as (evs' & w1 & ok1 & ok2 & Htr' & Hres & _).
    rewrite Htr in Htr'. apply app_inv_head in Htr'. subst evs'.
    erewrite since_app by exact Hres.
    rewrite total_sleep_app, resolved_lookups_app, HP.
    destruct ok1; cbn; lia.
Qed.

(** When the write of [lastSeen.json] throws, the bootstrap does not try
    [userIds.json]: the call that has failed is the last event of the run
    and its only write, and [userIds.json] is as it was. *)
Theorem failed_first_write_skips_second
    (handles : list jsstring) (st : State) :
  (fs_write lastSeenFile
     (world (initialize_handles handles (∅, ∅) st).2)).1 = false →
  let res := initializeLastSeen_for handles st in
  (∃ evs,
     written_paths evs = [] ∧
     since st res.2 =
       evs ++ [EvWrite lastSeenFile (JSON.stringify res.1.1) false]) ∧
  written_paths (since st res.2) = [lastSeenFile] ∧
  disk res.2 !! userIdFile = disk st !! userIdFile.
Proof.
  intros Hfail. cbn zeta.
  rewrite initializeLastSeen_for_spec. cbn zeta. cbn [fst snd].
  destruct (initialize_handles_frame handles (∅, ∅) st)
    as (evs & w1 & Hst & Hw).
  destruct (initialize_handles handles (∅, ∅) st) as [[nls nui] st1].
  cbn [fst snd] in *. subst st1. cbn [world] in Hfail.
  rewrite !writeFileSync_spec. cbn zeta.
  cbn [fst snd world lastSeen userIds disk trace].
  rewrite Hfail. cbn [snd disk trace].
  assert (Hs : since st
            {| world := (fs_write lastSeenFile w1).2; lastSeen := lastSeen st;
               userIds := userIds st; disk := disk st;
               trace := (trace st ++ evs)
                        ++ [EvWrite lastSeenFile
                              (JSON.stringify nls) false] |}
          = evs ++ [EvWrite lastSeenFile (JSON.stringify nls) false]).
  { apply since_app. cbn [trace]. by rewrite <- app_assoc. }
  rewrite Hs. split; [by exists evs|].
  split; [|done]. by rewrite written_paths_app, Hw.
Qed.

End BootstrapMore.

Section BootstrapInvariants.
Context `{Platform}.

Lemma initialize_handle_inv handles h acc st :
  h ∈ handles → bootstrap_inv handles acc →
  bootstrap_inv handles (initialize_handle h acc st).1.
Proof.
  intros Hin [Hseen Hids]. rewrite initialize_handle_acc.
  destruct (axios_get_user (user_url h) (world st)) as [[uid|] w1];
    cbn [fst snd]; [|done].
  assert (Hids' : ∀ h', is_Some (JS.set acc.2 h uid !! h') → h' ∈ handles).
  { intros h' [w Hw].
    apply JS_set_lookup_Some in Hw as [(-> & _)|Hw]; [done|].
    apply Hids. by eexists. }
  assert (Hkeep : ∀ h' w, acc.1 !! h' = Some w →
            JS.truthy (Some w) = true ∧ is_Some (JS.set acc.2 h uid !! h')).
  { intros h' w Hw. destruct (Hseen h' w Hw) as [? ?]. split; [done|].
    by apply JS_set_keeps. }
  split; [|done]. cbn [fst snd].
  destruct (axios_get_tweets _ _) as [[[[|t ts]|]|] w2]; cbn [fst]; try done.
  destruct (JS.truthy (Some (id t))) eqn:Ht; [|done].
  intros h' w Hw.
  apply JS_set_lookup_Some in Hw as [(-> & -> & Hor)|Hw]; [|by apply Hkeep].
  split; [done|]. destruct Hor as [Hp|[u Hu]].
  - rewrite JS_set_lookup by done. by eexists.
  - destruct (Hseen h u Hu) as [_ ?]. by apply JS_set_keeps.
Qed.

Lemma initialize_handles_inv handles hs : ∀ acc st,
  hs ⊆ handles → bootstrap_inv handles acc →
  bootstrap_inv handles (initialize_handles hs acc st).1.
Proof.
  induction hs as [|h hs IH]; intros acc st Hsub Hinv; [done|].
  cbn [initialize_handles]. unfold bind.
  pose proof (initialize_handle_inv handles h acc st
                (Hsub h ltac:(left)) Hinv) as Hinv'.
  destruct (initialize_handle h acc st) as [acc1 st1].
  apply IH; [|done]. intros x ?. apply Hsub. by right.
Qed.

(** A watermark that the bootstrap computes for a handle is not empty, the
    handle is one of those it was run on, and it has a user ID in the other
    new mapping: the next poll does not skip the handle for a missing
    entry, and sends its watermark as [since_id]. *)
Theorem bootstrap_watermark_has_user_id
    (handles : list jsstring) (st : State) (h w : jsstring) :
  (initializeLastSeen_for handles st).1.1 !! h = Some w →
  JS.truthy (Some w) = true ∧ h ∈ handles ∧
  is_Some ((initializeLastSeen_for handles st).1.2 !! h).
Proof.
  rewrite initializeLastSeen_for_spec. cbn zeta. cbn [fst].
  assert (Hinv0 : bootstrap_inv handles (∅, ∅)).
  { split; [intros h' w' Hx|intros h' [? Hx]]; cbn in Hx;
      by rewrite lookup_empty in Hx. }
  destruct (initialize_handles_inv handles handles (∅, ∅) st
              ltac:(done) Hinv0) as [Hseen Hids].
  intros Hw. destruct (Hseen h w Hw) as [? ?]. auto.
Qed.

Lemma initialize_handle_no_watermark h h0 acc st :
  resolves_without_posts h0 →
  acc.1 !! h0 = None →
  (initialize_handle h acc st).1.1 !! h0 = None.
Proof.
  intros Hno Hacc. rewrite initialize_handle_acc.
  destruct (axios_get_user (user_url h) (world st)) as [[uid|] w1] eqn:Hu;
    cbn [fst snd]; [|done].
  destruct (axios_get_tweets (latest_url uid) w1) as [r w2] eqn:Hr.
  cbn [fst]. destruct r as [[[|t ts]|]|]; try done.
  destruct (JS.truthy _); [|done].
  rewrite JS_set_lookup_ne; [done|]. intros ->.
  destruct (Hno (world st)) as (uid' & Hu' & Hposts).
  rewrite Hu in Hu'. injection Hu' as <-.
  specialize (Hposts w1). by rewrite Hr in Hposts.
Qed.

Lemma initialize_handle_user_id h acc st :
  h ≠ js "__proto__" →
  resolves_without_posts h →
  is_Some ((initialize_handle h acc st).1.2 !! h).
Proof.
  intros Hproto Hno. rewrite initialize_handle_acc.
  destruct (Hno (world st)) as (uid & -> & _). cbn [snd].
  rewrite JS_set_lookup by done. by eexists.
Qed.

Lemma initialize_handle_user_id_kept h h0 acc st :
  is_Some (acc.2 !! h0) →
  is_Some ((initialize_handle h acc st).1.2 !! h0).
Proof.
  intros Hacc. rewrite initialize_handle_acc.
  destruct (axios_get_user _ _).1; cbn [snd]; [|done].
  by apply JS_set_keeps.
Qed.

Lemma initialize_handles_user_id_kept h0 hs : ∀ acc st,
  is_Some (acc.2 !! h0) →
  is_Some ((initialize_handles hs acc st).1.2 !! h0).
Proof.
  induction hs as [|h hs IH]; intros acc st Hacc; [done|].
  cbn [initialize_handles]. unfold bind.
  pose proof (initialize_handle_user_id_kept h h0 acc st Hacc).
  destruct (initialize_handle h acc st) as [acc1 st1]. by apply IH.
Qed.

Lemma initialize_handle_world h acc st :
  world (initialize_handle h acc st).2 =
    match (axios_get_user (user_url h) (world st)).1 with
    | Some userId =>
        (axios_get_tweets (latest_url userId)
           (axios_get_user (user_url h) (world st)).2).2
    | None => (axios_get_user (user_url h) (world st)).2
    end.
Proof.
  destruct acc as [nls nui]. unfold initialize_handle, bind.
  rewrite getUserId_spec. cbn zeta.
  destruct (axios_get_user (user_url h) (world st)) as [[uid|] w1];
    cbn [fst snd]; [|done].
  unfold sleep, emit at 1. cbn beta iota.
  rewrite getLatestTweet_spec. cbn zeta. cbn [world trace].
  destruct (axios_get_tweets (latest_url uid) w1) as [r w2]. cbn [fst snd].
  destruct r as [[[|t ts]|]|]; try destruct (JS.truthy (Some (id t)));
    reflexivity.
Qed.

(** A handle other than [__proto__] that resolves and has no tweet (or
    whose timeline request throws) is in the new mapping of the user IDs
    and not in the one of the watermarks. *)
Theorem bootstrap_without_posts_keeps_the_user_id
    (handles : list jsstring) (h : jsstring) (st : State) :
  h ≠ js "__proto__" →
  h ∈ handles → resolves_without_posts h →
  is_Some ((initializeLastSeen_for handles st).1.2 !! h) ∧
  (initializeLastSeen_for handles st).1.1 !! h = None.
Proof.
  intros Hproto Hin Hno.
  rewrite initializeLastSeen_for_spec. cbn zeta. cbn [fst].
  split.
  - generalize (∅ : gmap jsstring jsstring, ∅ : gmap jsstring jsstring).
    revert st. induction handles as [|h' hs IH]; intros st acc;
      [by apply elem_of_nil in Hin|].
    cbn [initialize_handles]. unfold bind.
    apply elem_of_cons in Hin as [<-|Hin].
    + pose proof (initialize_handle_user_id h acc st Hproto Hno).
      destruct (initialize_handle h acc st) as [acc1 st1].
      by apply initialize_handles_user_id_kept.
    + destruct (initialize_handle h' acc st) as [acc1 st1]. by apply IH.
  - assert (Hgen : ∀ hs acc st0, acc.1 !! h = None →
              (initialize_handles hs acc st0).1.1 !! h = None).
    { induction hs as [|h' hs IH]; intros acc st0 Hacc; [done|].
      cbn [initialize_handles]. unfold bind.
      pose proof (initialize_handle_no_watermark h' h acc st0 Hno Hacc).
      destruct (initialize_handle h' acc st0) as [acc1 st1]. by apply IH. }
    by apply Hgen.
Qed.

(** The bootstrap starts from nothing: the new mappings, the requests and
    the writes are the same from two states with the same world, whatever
    the caches in memory and the files on the disk are; and the caches in
    memory are left as they were. *)
Theorem bootstrap_ignores_the_caches
    (handles : list jsstring) (st st' : State) :
  world st = world st' →
  (initializeLastSeen_for handles st).1 = (initializeLastSeen_for handles st').1 ∧
  since st (initializeLastSeen_for handles st).2
    = since st' (initializeLastSeen_for handles st').2 ∧
  lastSeen (initializeLastSeen_for handles st).2 = lastSeen st ∧
  userIds (initializeLastSeen_for handles st).2 = userIds st.
Proof.
  intros Hw.
  assert (Hloop : ∀ hs acc s s', world s = world s' →
    (initialize_handles hs acc s).1 = (initialize_handles hs acc s').1 ∧
    world (initialize_handles hs acc s).2
      = world (initialize_handles hs acc s').2 ∧
    since s (initialize_handles hs acc s).2
      = since s' (initialize_handles hs acc s').2).
  { induction hs as [|h hs IH]; intros acc s s' Hws.
    - cbn. unfold since. by rewrite !drop_all.
    - cbn [initialize_handles]. unfold bind.
      pose proof (initialize_handle_acc h acc s) as Ha.
      pose proof (initialize_handle_acc h acc s') as Ha'.
      pose proof (initialize_handle_trace h acc s) as Ht.
      pose proof (initialize_handle_trace h acc s') as Ht'.
      pose proof (initialize_handle_world h acc s) as Hx.
      pose proof (initialize_handle_world h acc s') as Hx'.
      rewrite <- Hws in Ha', Ht', Hx'.
      destruct (initialize_handle h acc s) as [acc1 s1].
      destruct (initialize_handle h acc s') as [acc1' s1'].
      cbn [fst snd] in *. rewrite <- Ha in Ha'. subst acc1'.
      rewrite <- Hx in Hx'. symmetry in Hx'.
      destruct (IH acc1 s1 s1' Hx') as (He1 & He2 & He3).
      split; [done|]. split; [done|].
      destruct (initialize_handles_frame hs acc1 s1) as (e2 & ? & Hs2 & _).
      destruct (initialize_handles_frame hs acc1 s1') as (e2' & ? & Hs2' & _).
      rewrite Hs2, Hs2' in He3 |- *. cbn [trace] in *.
      erewrite !since_app in He3 by reflexivity. subst e2'.
      rewrite Ht, Ht'.
      erewrite since_app by (rewrite <- app_assoc; reflexivity).
      erewrite since_app by (rewrite <- app_assoc; reflexivity).
      done. }
  destruct (Hloop handles (∅, ∅) st st' Hw) as (Hacc & Hwd & Hev).
  destruct (initializeLastSeen_for_trace handles st)
    as (evs & w1 & ok1 & ok2 & Htr & Hres & Hok & Hls & Hui & _).
  split; [|split; [|done]].
  - rewrite !initializeLastSeen_for_spec. cbn zeta. by cbn [fst].
  - rewrite !initializeLastSeen_for_spec. cbn zeta. cbn [fst snd].
    destruct (initialize_handles_frame handles (∅, ∅) st)
      as (e & x & Hs & _).
    destruct (initialize_handles_frame handles (∅, ∅) st')
      as (e' & x' & Hs' & _).
    rewrite Hs, Hs' in Hev, Hwd. cbn [world] in Hwd. subst x'.
    erewrite !since_app in Hev by reflexivity. subst e'.
    destruct (initialize_handles handles (∅, ∅) st) as [acc s1].
    destruct (initialize_handles handles (∅, ∅) st') as [acc' s1'].
    cbn [fst snd] in *. subst acc' s1 s1'.
    rewrite !writeFileSync_spec. cbn zeta.
    cbn [fst snd world lastSeen userIds disk trace].
    destruct (fs_write lastSeenFile x).1;
      cbn [fst snd world lastSeen userIds disk trace];
      (erewrite since_app by (rewrite <- !app_assoc; reflexivity));
      (erewrite since_app by (rewrite <- !app_assoc; reflexivity));
      done.
Qed.

End BootstrapInvariants.

(** * Cycles and restarts *)

Section Cycles.
Context `{Platform}.

Lemma poll_for_trace handles st :
  ∃ evs,
    trace (poll_for handles st).2 = trace st ++ evs ∧
    written_paths evs = [lastSeenFile] ∧
    userIds (poll_for handles st).2 = userIds st ∧
    disk (poll_for handles st).2 !! userIdFile = disk st !! userIdFile.
Proof.
  rewrite poll_for_spec. cbn zeta.
  destruct (poll_loop_spec handles st)
    as (st1 & evs & -> & Hids & Hdisk & Htr & Hw).
  cbn [snd]. rewrite writeFileSync_spec. cbn zeta.
  cbn [snd userIds disk trace]. eexists.
  split; [rewrite Htr, <- app_assoc; reflexivity|].
  split; [by rewrite written_paths_app, Hw|]. split; [done|].
  destruct (fs_write lastSeenFile (world st1)).1; [|by rewrite Hdisk].
  rewrite lookup_insert_ne; [by rewrite Hdisk|]. apply cache_files_differ.
Qed.

(** Any number of poll cycles in a row write [lastSeen.json] once per
    cycle and nothing else; they leave the user IDs in memory and
    [userIds.json] as they were. *)
Theorem cycles_write_lastSeen_once_each
    (handles : list jsstring) (cycles : nat) (st : State) :
  let st' := (startPolling_for handles cycles st).2 in
  written_paths (since st st') = replicate cycles lastSeenFile ∧
  userIds st' = userIds st ∧
  disk st' !! userIdFile = disk st !! userIdFile.
Proof.
  cbn zeta.
  assert (Hgen : ∀ n s, ∃ evs,
    trace (startPolling_for handles n s).2 = trace s ++ evs ∧
    written_paths evs = replicate n lastSeenFile ∧
    userIds (startPolling_for handles n s).2 = userIds s ∧
    disk (startPolling_for handles n s).2 !! userIdFile
      = disk s !! userIdFile).
  { induction n as [|n IH]; intros s.
    - exists []. cbn. by rewrite app_nil_r.
    - cbn [startPolling_for]. unfold bind.
      destruct (poll_for_trace handles s) as (e1 & Ht1 & Hw1 & Hu1 & Hd1).
      destruct (poll_for handles s) as [[] s1]. cbn [snd] in *.
      destruct (IH s1) as (e2 & Ht2 & Hw2 & Hu2 & Hd2).
      exists (e1 ++ e2). rewrite Ht2, Ht1, Hu2, Hu1, Hd2, Hd1, <- app_assoc.
      split; [done|]. by rewrite written_paths_app, Hw1, Hw2. }
  destruct (Hgen cycles st) as (evs & Htr & Hw & Hu & Hd).
  by erewrite since_app by exact Htr.
Qed.

(** Over any number of poll cycles in a row, a handle with a watermark
    keeps it or gets a newer one, with an API that answers a request with
    [since_id] by newer tweets only. *)
Theorem watermark_never_decreases_over_cycles
    (newer : jsstring → jsstring → Prop)
    (handles : list jsstring) (cycles : nat) (handle w0 : jsstring)
    (st : State) :
  (∀ a b c, newer a b → newer b c → newer a c) →
  honours_since_id newer →
  lastSeen st !! handle = Some w0 →
  JS.truthy (Some w0) = true →
  ∃ w1, lastSeen (startPolling_for handles cycles st).2 !! handle = Some w1
        ∧ JS.truthy (Some w1) = true ∧ (w1 = w0 ∨ newer w0 w1).
Proof.
  intros Htrans Hapi Hw Ht.
  apply (later_not_older newer Htrans Hapi handle w0 st).
  - exists w0. auto.
  - apply later_cycles, later_now.
Qed.

Lemma initializeLastSeen_for_disk handles st :
  writes_succeed →
  let res := initializeLastSeen_for handles st in
  disk res.2 =
    <[userIdFile := FileText (JS.toWellFormed (JSON.stringify res.1.2))]>
      (<[lastSeenFile := FileText (JS.toWellFormed (JSON.stringify res.1.1))]>
         (disk st)).
Proof.
  intros Hfs. cbn zeta.
  rewrite initializeLastSeen_for_spec. cbn zeta. cbn [fst snd].
  destruct (initialize_handles_frame handles (∅, ∅) st)
    as (evs & w1 & Hst & _).
  destruct (initialize_handles handles (∅, ∅) st) as [[nls nui] st1].
  cbn [fst snd] in *. subst st1.
  rewrite !writeFileSync_spec. cbn zeta.
  cbn [fst snd world lastSeen userIds disk trace].
  rewrite !Hfs. by cbn [snd disk trace].
Qed.

(** A run that follows a bootstrap whose writes have succeeded starts its
    poll cycles from the two mappings that the bootstrap has computed. *)
Theorem run_after_bootstrap_starts_from_its_mappings
    (bootstrapped handles : list jsstring) (cycles : nat) (st : State)
    (w : World) :
  writes_succeed →
  let res := initializeLastSeen_for bootstrapped st in
  main_for handles false cycles w (disk res.2)
    = Some (startPolling_for handles cycles
              {| world := w; lastSeen := res.1.1; userIds := res.1.2;
                 disk := disk res.2; trace := [] |}).2.
Proof.
  intros Hfs. cbn zeta.
  pose proof (initializeLastSeen_for_disk bootstrapped st Hfs) as Hd.
  cbn zeta in Hd.
  destruct (initializeLastSeen_for bootstrapped st) as [[nls nui] st1].
  cbn [fst snd] in *. unfold main_for.
  pose proof cache_files_differ as Hne.
  assert (H1 : read_json (disk st1) lastSeenFile
               = Some (JSON.JObj (as_members (map_to_list nls)))).
  { rewrite Hd, read_json_insert_ne by done.
    rewrite read_json_insert. apply parse_saved. }
  assert (H2 : read_json (disk st1) userIdFile
               = Some (JSON.JObj (as_members (map_to_list nui)))).
  { rewrite Hd, read_json_insert. apply parse_saved. }
  rewrite (load_cache_lastSeen _ _ H1), (load_cache_userIds _ _ _ H1 H2).
  by rewrite !as_mapping_saved.
Qed.

Lemma stringify_empty : JSON.stringify ∅ = [123; 125].
Proof. unfold JSON.stringify. by rewrite map_to_list_empty. Qed.

(** When [lastSeen.json] exists and cannot be read or parsed,
    [userIds.json] is not loaded either, whatever it holds: the run that
    follows starts from two empty objects and never has a user ID of its
    own.  With handles none of which is the name of a member that every
    object inherits, its first poll cycle sends no request and only
    writes the empty object to [lastSeen.json]. *)
Theorem corrupt_lastSeen_forgets_the_user_ids
    (handles : list jsstring) (w : World) (d : gmap jsstring File) :
  is_Some (d !! lastSeenFile) →
  read_json d lastSeenFile = None →
  load_cache d = (JSON.JObj [], JSON.JObj []) ∧
  ∃ st', main_for handles false 1 w d = Some st' ∧
         st' = (poll_for handles
                  {| world := w; lastSeen := ∅; userIds := ∅; disk := d;
                     trace := [] |}).2 ∧
         userIds st' = ∅ ∧
         ((∀ h, h ∈ handles → JS.inherited h = None) →
          trace st' = [EvWrite lastSeenFile [123; 125]
                         (fs_write lastSeenFile w).1]).
Proof.
  intros [f Hf] Hr.
  assert (Hl : load_cache d = (JSON.JObj [], JSON.JObj [])).
  { unfold load_cache. by rewrite Hf, Hr. }
  split; [done|]. unfold main_for. rewrite Hl.
  cbn [fst snd JSON.as_mapping JSON.members_mapping].
  eexists. split; [reflexivity|].
  cbn [startPolling_for]. unfold bind.
  set (st := {| world := w; lastSeen := ∅; userIds := ∅; disk := d;
                trace := [] |}).
  split; [by destruct (poll_for handles st) as [[] st1]|].
  split.
  { destruct (poll_for_trace handles st) as (evs & _ & _ & Hu & _).
    by destruct (poll_for handles st) as [[] st1]. }
  intros Hplain. rewrite (poll_for_skip handles st).
  - subst st. cbn [snd ret userIds trace lastSeen world app].
    by rewrite stringify_empty.
  - intros h Hin. subst st. cbn [userIds]. unfold JS.get.
    by rewrite lookup_empty, (Hplain h Hin).
Qed.

End Cycles.

(** ** The further properties at work *)

Lemma forwarded_tweet_witness :
  ∃ url data t,
    EvGetTweets url (Some data) ∈ since demo_start (@poll demo demo_start).2 ∧
    t ∈ default [] data ∧
    in_reply_to_user_id t = JS.Null ∧ has_reply_target t = false ∧
    prompt (js "gm") = prompt (text t).
Proof.
  apply (@only_tweets_with_null_reply_field_are_forwarded demo
           userHandles demo_start (prompt (js "gm"))).
  vm_compute. apply list_elem_of_here.
Defined.

Lemma quiet_cycle_witness :
  lastSeen (@poll demo demo_caught_up).2 = lastSeen demo_caught_up ∧
  completion_prompts
    (since demo_caught_up (@poll demo demo_caught_up).2) = [] ∧
  published_texts
    (since demo_caught_up (@poll demo demo_caught_up).2) = [].
Proof.
  apply (@quiet_cycle_changes_nothing demo userHandles demo_caught_up).
  intros url res Hin. vm_compute in Hin.
  apply elem_of_cons in Hin as [Hin|Hin]; [by injection Hin as -> ->|].
  apply elem_of_cons in Hin as [Hin|Hin]; [discriminate Hin|].
  apply elem_of_cons in Hin as [Hin|Hin]; [discriminate Hin|].
  by apply elem_of_nil in Hin.
Defined.

Lemma poll_without_user_ids_witness :
  lastSeen (@poll demo_two demo_two_start).2 = lastSeen demo_two_start.
Proof.
  apply (@poll_without_user_ids_only_writes demo_two userHandles
           demo_two_start).
  intros h Hin. apply list_elem_of_singleton in Hin. subst h. reflexivity.
Defined.

Lemma other_watermark_witness :
  lastSeen (@poll demo demo_seen).2 !! js "nobody"
    = lastSeen demo_seen !! js "nobody".
Proof.
  apply (@poll_leaves_other_watermarks demo userHandles (js "nobody")
           demo_seen).
  intros Hin. apply list_elem_of_singleton in Hin. discriminate Hin.
Defined.

Lemma blank_commentary_witness :
  (@generateQuote demo_blank (js "gm") (@start demo_blank tt [] [])).1
    = Some [] ∧
  since (@start demo_blank tt [] [])
    (@process_tweet demo_blank (js "AzoniNFT") P1
       (@start demo_blank tt [] [])).2
    = [EvCompletion (prompt (js "gm")) (Some (js "   "))].
Proof.
  apply (@blank_commentary_is_not_published demo_blank (js "AzoniNFT") P1
           (js "   ") (@start demo_blank tt [] []));
    reflexivity.
Defined.

Lemma failed_first_write_witness :
  written_paths
    (since (@start demo_readonly tt [] [])
       (@initializeLastSeen demo_readonly (@start demo_readonly tt [] [])).2)
    = [lastSeenFile] ∧
  disk (@initializeLastSeen demo_readonly (@start demo_readonly tt [] [])).2
    !! userIdFile = None.
Proof.
  destruct (@failed_first_write_skips_second demo_readonly userHandles
              (@start demo_readonly tt [] [])) as (_ & Hw & Hd);
    [reflexivity|].
  exact (conj Hw Hd).
Defined.

Lemma bootstrap_watermark_witness :
  JS.truthy (Some (js "103")) = true ∧ js "AzoniNFT" ∈ userHandles ∧
  is_Some ((@initializeLastSeen demo demo_start).1.2 !! js "AzoniNFT").
Proof.
  apply (@bootstrap_watermark_has_user_id demo userHandles demo_start
           (js "AzoniNFT") (js "103")).
  reflexivity.
Defined.

Lemma bootstrap_without_posts_witness :
  is_Some ((@initializeLastSeen demo_empty demo_empty_start).1.2
           !! js "AzoniNFT") ∧
  (@initializeLastSeen demo_empty demo_empty_start).1.1 !! js "AzoniNFT"
    = None.
Proof.
  apply (@bootstrap_without_posts_keeps_the_user_id demo_empty userHandles
           (js "AzoniNFT") demo_empty_start).
  - discriminate.
  - apply list_elem_of_here.
  - intros []. exists (js "42"). split; [reflexivity|]. intros []. exact I.
Defined.

Lemma bootstrap_ignores_witness :
  (@initializeLastSeen demo demo_start).1
    = (@initializeLastSeen demo demo_seen).1 ∧
  since demo_start (@initializeLastSeen demo demo_start).2
    = since demo_seen (@initializeLastSeen demo demo_seen).2 ∧
  lastSeen (@initializeLastSeen demo demo_start).2 = lastSeen demo_start ∧
  userIds (@initializeLastSeen demo demo_start).2 = userIds demo_start.
Proof.
  apply (@bootstrap_ignores_the_caches demo userHandles demo_start
           demo_seen).
  reflexivity.
Defined.

Lemma watermark_over_cycles_witness :
  ∃ w1, lastSeen (@startPolling demo 3 demo_seen).2 !! js "AzoniNFT"
          = Some w1
        ∧ JS.truthy (Some w1) = true
        ∧ (w1 = js "101" ∨ id_newer (js "101") w1).
Proof.
  apply (@watermark_never_decreases_over_cycles demo id_newer userHandles 3
           (js "AzoniNFT") (js "101") demo_seen).
  - apply id_newer_trans.
  - apply script_honours_since_id.
  - reflexivity.
  - reflexivity.
Defined.

Lemma run_after_bootstrap_witness :
  @main demo false 1 tt (disk (@initializeLastSeen demo demo_start).2)
    = Some (@startPolling demo 1
              (@Build_State demo tt
                 (@initializeLastSeen demo demo_start).1.1
                 (@initializeLastSeen demo demo_start).1.2
                 (disk (@initializeLastSeen demo demo_start).2)
                 [])).2.
Proof.
  apply (@run_after_bootstrap_starts_from_its_mappings demo userHandles
           userHandles 1 demo_start tt).
  intros ? []. reflexivity.
Defined.

Lemma corrupt_lastSeen_witness :
  load_cache corrupt_disk = (JSON.JObj [], JSON.JObj []) ∧
  ∃ st', @main demo false 1 tt corrupt_disk = Some st' ∧
         userIds st' = ∅ ∧
         trace st' = [EvWrite lastSeenFile [123; 125] true].
Proof.
  destruct (@corrupt_lastSeen_forgets_the_user_ids demo userHandles tt
              corrupt_disk) as (Hl & st' & Hm & _ & Hu & Htr).
  - eexists. reflexivity.
  - reflexivity.
  - split; [exact Hl|]. exists st'. split; [exact Hm|].
    split; [exact Hu|]. apply Htr.
    intros h Hin. apply list_elem_of_singleton in Hin. subst h. reflexivity.
Defined.
